(** * transmeta: per-language model fields and their fallback accessor

    A shallow embedding of [transmeta/__init__.py]: the field-name helpers,
    the fallback resolver behind the virtual accessor ([default_value]) and
    the attribute rewriting done by the metaclass ([TransMeta.__new__]). *)

From Stdlib Require Import String Ascii List Bool ZArith Lia.
From stdpp Require Import base option list strings gmap fin_maps.

Open Scope string_scope.

(** ** Python values and strings *)

(** The values an instance attribute or a field default can hold. *)
Inductive pyval : Type :=
  | VNone
  | VBool (b : bool)
  | VInt (z : Z)
  | VStr (s : string).

(** Python truth value: [None], [False], [0] and the empty string are
    false. *)
Definition truthy (v : pyval) : bool :=
  match v with
  | VNone => false
  | VBool b => b
  | VInt z => negb (Z.eqb z 0)
  | VStr s => negb (String.eqb s "")
  end.

(** Exceptions the module can raise or let through. *)
Inductive exn : Type :=
  | ImproperlyConfigured (msg : string)
  | AttributeError (what : string)
  | KeyError (key : string)
  | TypeError (msg : string)
  | HostError (msg : string).

(** [s.split(sep)] for a one-character separator: never the empty list. *)
Fixpoint split (sep : ascii) (s : string) : list string :=
  match s with
  | EmptyString => [EmptyString]
  | String c s' =>
      if Ascii.eqb c sep then EmptyString :: split sep s'
      else match split sep s' with
           | [] => [String c EmptyString]
           | w :: ws => String c w :: ws
           end
  end.

(** [l[0]] and [l[-1]] on the result of [split]. *)
Definition first_item (l : list string) : string := hd EmptyString l.
Definition last_item (l : list string) : string := List.last l EmptyString.

(** [c in s] for a character. *)
Fixpoint has_char (c : ascii) (s : string) : bool :=
  match s with
  | EmptyString => false
  | String d s' => Ascii.eqb d c || has_char c s'
  end.

(** [p in s] for strings. *)
Fixpoint contains (p s : string) : bool :=
  String.prefix p s ||
  match s with
  | EmptyString => false
  | String _ s' => contains p s'
  end.

(** ** Settings and the current language *)

(** A catalog entry [(code, label)]: [lang[LANGUAGE_CODE]], index 0, is
    [fst] and [lang[LANGUAGE_NAME]], index 1, is [snd]. *)
Definition language : Type := string * string.

(** The settings the module reads; an [option] is an attribute that may be
    missing from [settings] ([getattr] with a default). *)
Record Settings : Type := {
  LANGUAGES : list language;
  LANGUAGE_CODE : string;
  TRANSMETA_LANGUAGES : option (list language);
  TRANSMETA_DEFAULT_LANGUAGE : option string;
  TRANSMETA_MANDATORY_LANGUAGE : option string
}.

(** The ambient state while a language is active: the settings and the
    language code that [get_language()] returns. [Runtime] below is the
    state in which [get_language()] may also return [None]. *)
Record Env : Type := {
  settings : Settings;
  get_language : string
}.

Section Helpers.

Variable env : Env.

Definition get_languages : list language :=
  match TRANSMETA_LANGUAGES (settings env) with
  | Some l => l
  | None => LANGUAGES (settings env)
  end.

Definition get_real_fieldname (field : string) (lang : option string) : string :=
  let lang :=
    match lang with
    | None => first_item (split "-"%char (get_language env))
    | Some l => l
    end in
  field +:+ "_" +:+ lang.

Definition get_field_language (real_field : string) : string :=
  last_item (split "_"%char real_field).

Definition fallback_language : string :=
  match TRANSMETA_DEFAULT_LANGUAGE (settings env) with
  | Some l => l
  | None => LANGUAGE_CODE (settings env)
  end.

Definition mandatory_language : string :=
  match TRANSMETA_MANDATORY_LANGUAGE (settings env) with
  | Some l => l
  | None => fallback_language
  end.

Definition get_fallback_fieldname (field : string) (lang : option string) : string :=
  get_real_fieldname field (Some fallback_language).

Definition get_mandatory_fieldname (field : string) (lang : option string) : string :=
  get_real_fieldname field (Some mandatory_language).

Definition get_real_fieldname_in_each_language (field : string) : list string :=
  map (fun lang : language => get_real_fieldname field (Some (fst lang)))
      get_languages.

(** ** The fallback resolver *)

(** The stored attributes of a model instance. *)
Definition getattr_or_None (self : gmap string pyval) (name : string) : pyval :=
  match self !! name with
  | Some v => v
  | None => VNone
  end.

Definition getattr (self : gmap string pyval) (name : string) : exn + pyval :=
  match self !! name with
  | Some v => inr v
  | None => inl (AttributeError name)
  end.

(** [default_value(field)] returns the getter [default_value_func]. *)
Definition default_value (field : string) (self : gmap string pyval) : exn + pyval :=
  let attname := fun x : string => get_real_fieldname field (Some x) in
  if truthy (getattr_or_None self (attname (get_language env))) then
    getattr self (attname (get_language env))
  else if truthy (getattr_or_None self
                    (attname (String.substring 0 2 (get_language env)))) then
    getattr self (attname (String.substring 0 2 (get_language env)))
  else
    let default_language := fallback_language in
    if truthy (getattr_or_None self (attname default_language)) then
      inr (getattr_or_None self (attname default_language))
    else
      inr (getattr_or_None self (attname (LANGUAGE_CODE (settings env)))).

(** The four names of the fallback chain, in the order of the specification. *)
Definition fallback_chain (field : string) : list string :=
  [ get_real_fieldname field (Some (get_language env));
    get_real_fieldname field (Some (String.substring 0 2 (get_language env)));
    get_real_fieldname field (Some fallback_language);
    get_real_fieldname field (Some (LANGUAGE_CODE (settings env))) ].

(** The specification's resolver: the first truthy value along a chain. *)
Fixpoint first_truthy (vs : list pyval) : option pyval :=
  match vs with
  | [] => None
  | v :: vs' => if truthy v then Some v else first_truthy vs'
  end.

End Helpers.

(** ** The accessor when no language is active *)

(** The ambient state in general: [get_language()] returns a language code,
    or [None] while translations are deactivated. *)
Record Runtime : Type := {
  rt_settings : Settings;
  rt_language : option string
}.

(** The state of [Runtime] while the language [lang] is active. *)
Definition env_with (st : Settings) (lang : string) : Env :=
  {| settings := st; get_language := lang |}.

Definition exn_bind {A B : Type} (m : exn + A) (k : A -> exn + B) : exn + B :=
  match m with
  | inl e => inl e
  | inr x => k x
  end.

(** [get_real_fieldname] as it runs: with [lang] [None] it calls [split] on
    what [get_language()] returns, which raises on [None]. *)
Definition get_real_fieldname_rt (rt : Runtime) (field : string)
    (lang : option string) : exn + string :=
  exn_bind
    (match lang with
     | None =>
         match rt_language rt with
         | Some current => inr (first_item (split "-"%char current))
         | None => inl (AttributeError "split")
         end
     | Some l => inr l
     end)
    (fun lang => inr (field +:+ "_" +:+ lang)).

(** [get_language()[:2]] *)
Definition get_language_2 (rt : Runtime) : exn + option string :=
  match rt_language rt with
  | Some current => inr (Some (String.substring 0 2 current))
  | None => inl (TypeError "NoneType")
  end.

Definition fallback_language_rt (rt : Runtime) : string :=
  match TRANSMETA_DEFAULT_LANGUAGE (rt_settings rt) with
  | Some l => l
  | None => LANGUAGE_CODE (rt_settings rt)
  end.

(** The getter [default_value_func] as it runs: the argument of each
    [getattr] is evaluated first, and [attname] is given what
    [get_language()] returns. *)
Definition default_value_func (rt : Runtime) (field : string)
    (self : gmap string pyval) : exn + pyval :=
  let attname := fun x : option string => get_real_fieldname_rt rt field x in
  exn_bind (attname (rt_language rt)) (fun n1 =>
  if truthy (getattr_or_None self n1) then
    exn_bind (attname (rt_language rt)) (fun n => getattr self n)
  else
    exn_bind (get_language_2 rt) (fun l2 =>
    exn_bind (attname l2) (fun n2 =>
    if truthy (getattr_or_None self n2) then
      exn_bind (get_language_2 rt) (fun l2 =>
      exn_bind (attname l2) (fun n => getattr self n))
    else
      let default_language := fallback_language_rt rt in
      exn_bind (attname (Some default_language)) (fun n3 =>
      if truthy (getattr_or_None self n3) then
        exn_bind (attname (Some default_language)) (fun n =>
        inr (getattr_or_None self n))
      else
        exn_bind (attname (Some (LANGUAGE_CODE (rt_settings rt)))) (fun n4 =>
        inr (getattr_or_None self n4)))))).

(** ** Field declarations and class attributes *)

(** A field's display name: [None], a plain string, or the [LazyString]
    that decorates a display name with a language label. *)
Inductive verbose : Type :=
  | VerbNone
  | VerbStr (s : string)
  | LazyString (proxy : verbose) (lang : string).

(** A field object. [default = None] is [NOT_PROVIDED]; [verbose_name] and
    [original_fieldname] are [None] when the object has no such attribute;
    [kind] and [options] stand for the field class and its other options,
    which [copy.copy] carries over. *)
Record Field : Type := {
  kind : string;
  name : option string;
  null : bool;
  blank : bool;
  default : option pyval;
  verbose_name : option verbose;
  original_fieldname : option string;
  options : list (string * pyval)
}.

Definition set_original_fieldname (v : string) (f : Field) : Field :=
  {| kind := kind f; name := name f; null := null f; blank := blank f;
     default := default f; verbose_name := verbose_name f;
     original_fieldname := Some v; options := options f |}.

Definition set_null (v : bool) (f : Field) : Field :=
  {| kind := kind f; name := name f; null := v; blank := blank f;
     default := default f; verbose_name := verbose_name f;
     original_fieldname := original_fieldname f; options := options f |}.

Definition set_blank (v : bool) (f : Field) : Field :=
  {| kind := kind f; name := name f; null := null f; blank := v;
     default := default f; verbose_name := verbose_name f;
     original_fieldname := original_fieldname f; options := options f |}.

Definition set_verbose_name (v : verbose) (f : Field) : Field :=
  {| kind := kind f; name := name f; null := null f; blank := blank f;
     default := default f; verbose_name := Some v;
     original_fieldname := original_fieldname f; options := options f |}.

Definition is_NOT_PROVIDED (d : option pyval) : bool :=
  match d with
  | None => true
  | Some _ => false
  end.

Definition canonical_fieldname (db_field : Field) : option string :=
  match original_fieldname db_field with
  | Some f => Some f
  | None => name db_field
  end.

(** The value of an attribute of the inner [Meta] class; [Meta] itself is
    the finite map of the attributes it declares. What the bases of [Meta]
    carry is the [inherited] map of [get_translatable_inheriting]. *)
Inductive metaval : Type :=
  | MTuple (items : list string)
  | MList (items : list string)
  | MOther (v : pyval).

(** What a name of the class body is bound to. [AProperty field] is
    [property(default_value(field))]. *)
Inductive attr : Type :=
  | AField (f : Field)
  | AMeta (m : gmap string metaval)
  | AProperty (field : string)
  | AOther (v : pyval).

(** [_meta] of a model class. *)
Record Options : Type := {
  meta_abstract : bool;
  translatable_fields : option (list string)
}.

(** A class object, as far as the metaclass looks at it. *)
Record klass : Type := {
  cls_name : string;
  cls_dict : gmap string attr;
  cls_meta : option Options
}.

(** Reading, on an instance, a name that the class binds to a property. *)
Definition read_property (env : Env) (a : attr) (self : gmap string pyval) :
    option (exn + pyval) :=
  match a with
  | AProperty field => Some (default_value env field self)
  | _ => None
  end.

Definition set_translatable_fields (l : list string) (o : Options) : Options :=
  {| meta_abstract := meta_abstract o; translatable_fields := Some l |}.

(** ** The metaclass: statements over the attribute mapping *)

(** A computation over the local [attrs] mapping that may raise; the mapping
    reached when it raises is kept. *)
Definition M (A : Type) : Type :=
  gmap string attr -> (exn + A) * gmap string attr.

#[global] Instance M_ret : MRet M := fun A x s => (inr x, s).

#[global] Instance M_bind : MBind M := fun A B k m s =>
  match m s with
  | (inl e, s') => (inl e, s')
  | (inr x, s') => k x s'
  end.

Definition raise {A : Type} (e : exn) : M A := fun s => (inl e, s).

(** [attrs[key]] *)
Definition get_item (key : string) : M attr := fun s =>
  match s !! key with
  | Some a => (inr a, s)
  | None => (inl (KeyError key), s)
  end.

(** [attrs[key] = a] *)
Definition set_item (key : string) (a : attr) : M unit := fun s =>
  (inr tt, <[key := a]> s).

(** [del attrs[key]] *)
Definition del_item (key : string) : M unit := fun s =>
  match s !! key with
  | Some _ => (inr tt, delete key s)
  | None => (inl (KeyError key), s)
  end.

Fixpoint for_each {A : Type} (l : list A) (body : A -> M unit) : M unit :=
  match l with
  | [] => mret tt
  | x :: l' => body x ≫= fun _ => for_each l' body
  end.

Definition tuple_message : string :=
  "Meta's translate attribute must be a tuple".

Definition get_translatable (meta_field : string) : M (list string * bool) :=
  fun attrs =>
    match attrs !! "Meta" with
    | Some (AMeta m) =>
        match m !! meta_field with
        | Some fields =>
            let attrs' := <["Meta" := AMeta (delete meta_field m)]> attrs in
            match fields with
            | MTuple items => (inr (items, true), attrs')
            | _ => (inl (ImproperlyConfigured tuple_message), attrs')
            end
        | None => (inr ([], false), attrs)
        end
    | _ => (inr ([], false), attrs)
    end.

(** [get_translatable] when the bases of [Meta] carry attributes too:
    [inherited] maps the names that [hasattr] finds on a base of [Meta].
    [getattr] reads the declared attribute before an inherited one, and
    [delattr], which runs before the tuple test, removes a declared
    attribute and raises [AttributeError] on a name that is only inherited.
    [get_translatable] is the case of an [inherited] map without the name. *)
Definition get_translatable_inheriting (inherited : gmap string metaval)
    (meta_field : string) : M (list string * bool) :=
  fun attrs =>
    match attrs !! "Meta" with
    | Some (AMeta m) =>
        match m !! meta_field with
        | Some fields =>
            let attrs' := <["Meta" := AMeta (delete meta_field m)]> attrs in
            match fields with
            | MTuple items => (inr (items, true), attrs')
            | _ => (inl (ImproperlyConfigured tuple_message), attrs')
            end
        | None =>
            match inherited !! meta_field with
            | Some _ => (inl (AttributeError meta_field), attrs)
            | None => (inr ([], false), attrs)
            end
        end
    | _ => (inr ([], false), attrs)
    end.

Definition no_field_message (field name : string) : string :=
  "There is no field " +:+ field +:+ " in model " +:+ name +:+
  ", as specified in Meta's translate attribute".

Definition check_field_in_model (field name : string) : M unit :=
  fun attrs =>
    match attrs !! field with
    | Some (AField _) => (inr tt, attrs)
    | _ => (inl (ImproperlyConfigured (no_field_message field name)), attrs)
    end.

Section TransMeta.

Variable env : Env.

(** [ModelBase.__new__] of the host framework, which builds the class. *)
Variable ModelBase_new :
  string -> list klass -> gmap string attr -> exn + klass.

(** The body of the inner loop up to the assignment: the field generated
    for [field] and the catalog entry [lang]. *)
Definition lang_attr (fields : list string) (field : string)
    (original_attr : Field) (lang : language) : Field :=
  let lang_code := fst lang in
  let lang_name := snd lang in
  let a := set_original_fieldname field original_attr in
  let a :=
    if bool_decide (lang_code ≠ mandatory_language env) then
      if bool_decide (field ∈ fields) then
        let a := if negb (null a) && is_NOT_PROVIDED (default a)
                 then set_null true a else a in
        if negb (blank a) then set_blank true a else a
      else a
    else a in
  match verbose_name a with
  | Some v => set_verbose_name (LazyString v lang_name) a
  | None => a
  end.

(** One turn of the outer loop. After [check_field_in_model] the name is
    bound to a field object; the last branch is not reached. *)
Definition expand_field (name : string) (fields : list string)
    (field : string) : M unit :=
  check_field_in_model field name ≫= fun _ =>
  get_item field ≫= fun original_attr =>
  match original_attr with
  | AField original =>
      for_each (get_languages env) (fun lang =>
        set_item (get_real_fieldname env field (Some (fst lang)))
                 (AField (lang_attr fields field original lang))) ≫= fun _ =>
      del_item field ≫= fun _ =>
      set_item field (AProperty field)
  | _ => raise (AttributeError "null")
  end.

(** [__new__] up to the call of the host's class constructor: the two
    tuples, whether either was declared, and the rewritten [attrs]. *)
Definition rewrite_attrs (name : string) : M (list string * list string * bool) :=
  get_translatable "translate" ≫= fun '(fields, trans_1) =>
  get_translatable "translate_mandatory" ≫= fun '(mandatory, trans_2) =>
  if negb (trans_1 || trans_2) then mret (fields, mandatory, false)
  else
    for_each (fields ++ mandatory) (expand_field name fields) ≫= fun _ =>
    mret (fields, mandatory, true).

Definition is_abstract_model_base (base : klass) : bool :=
  match cls_meta base with
  | Some o => meta_abstract o
  | None => false
  end.

Definition base_translatable_fields (base : klass) : list string :=
  match cls_meta base with
  | Some o =>
      match translatable_fields o with
      | Some l => l
      | None => []
      end
  | None => []
  end.

Definition inherited_translatable_fields (bases : list klass) : list string :=
  flat_map base_translatable_fields (List.filter is_abstract_model_base bases).

Definition TransMeta_new (name : string) (bases : list klass)
    (attrs : gmap string attr) : exn + klass :=
  match rewrite_attrs name attrs with
  | (inl e, _) => inl e
  | (inr (fields, mandatory, false), attrs) =>
      match ModelBase_new name bases attrs with
      | inl e => inl e
      | inr new_class =>
          match cls_meta new_class with
          | None => inl (AttributeError "_meta")
          | Some o =>
              inr {| cls_name := cls_name new_class;
                     cls_dict := cls_dict new_class;
                     cls_meta := Some (set_translatable_fields
                                         (inherited_translatable_fields bases) o) |}
          end
      end
  | (inr (fields, mandatory, true), attrs) =>
      match ModelBase_new name bases attrs with
      | inl e => inl e
      | inr new_class =>
          match cls_meta new_class with
          | None => inr new_class
          | Some o =>
              inr {| cls_name := cls_name new_class;
                     cls_dict := cls_dict new_class;
                     cls_meta := Some (set_translatable_fields
                                         (mandatory ++ fields) o) |}
          end
      end
  end.

End TransMeta.

(** [rewrite_attrs] for a [Meta] whose bases carry the [inherited]
    attributes. *)
Definition rewrite_attrs_inheriting (inherited : gmap string metaval)
    (env : Env) (name : string) : M (list string * list string * bool) :=
  get_translatable_inheriting inherited "translate" ≫= fun '(fields, trans_1) =>
  get_translatable_inheriting inherited "translate_mandatory" ≫=
    fun '(mandatory, trans_2) =>
  if negb (trans_1 || trans_2) then mret (fields, mandatory, false)
  else
    for_each (fields ++ mandatory) (expand_field env name fields) ≫= fun _ =>
    mret (fields, mandatory, true).

(** ** The rewritten mapping in closed form *)

(** The inner loop as one update of the mapping. *)
Definition set_items {A : Type} (key : A -> string) (val : A -> attr)
    (l : list A) (s : gmap string attr) : gmap string attr :=
  foldl (fun s x => <[key x := val x]> s) s l.

(** The mapping after the inner loop for [field]. *)
Definition with_lang_attrs (env : Env) (fields : list string) (field : string)
    (original : Field) (s : gmap string attr) : gmap string attr :=
  set_items (fun lang : language => get_real_fieldname env field (Some (fst lang)))
            (fun lang => AField (lang_attr env fields field original lang))
            (get_languages env) s.

(** The mapping after one turn of the outer loop for [field]. *)
Definition expanded (env : Env) (fields : list string) (field : string)
    (original : Field) (s : gmap string attr) : gmap string attr :=
  <[field := AProperty field]> (delete field (with_lang_attrs env fields field original s)).

Definition stored_field (a : attr) : option Field :=
  match a with
  | AField f => Some f
  | _ => None
  end.

(** The names of a mapping that are bound to field objects. *)
Definition stored_fields (s : gmap string attr) : gmap string Field :=
  omap stored_field s.

(** ** The registry in the words of the specification *)

(** The specification's registry of a model that declares neither tuple:
    the registries of its abstract bases, concatenated, each name kept once,
    in the order of first declaration. *)
Fixpoint dedup_in_order (l : list string) : list string :=
  match l with
  | [] => []
  | x :: l' => x :: List.filter (fun y => negb (String.eqb x y)) (dedup_in_order l')
  end.

Definition spec_inherited_registry (bases : list klass) : list string :=
  dedup_in_order (inherited_translatable_fields bases).

(** ** Concrete configurations and declarations used in the examples *)

Definition title_field : Field :=
  {| kind := "CharField"; name := None; null := false; blank := false;
     default := None; verbose_name := Some (VerbStr "title");
     original_fieldname := None; options := [("max_length", VInt 30)] |}.

Definition settings_en_fr : Settings :=
  {| LANGUAGES := [("en", "English"); ("fr", "French")];
     LANGUAGE_CODE := "en";
     TRANSMETA_LANGUAGES := None;
     TRANSMETA_DEFAULT_LANGUAGE := Some "fr";
     TRANSMETA_MANDATORY_LANGUAGE := Some "en" |}.

(** Current language "en-US", fallback language "fr", default language "en". *)
Definition env_en_US : Env :=
  {| settings := settings_en_fr; get_language := "en-US" |}.

Definition instance_bonjour : gmap string pyval :=
  <["field_en" := VStr ""]>
    (<["field_fr" := VStr "Bonjour"]> (<["field_en_US" := VNone]> ∅)).

Definition instance_untranslated : gmap string pyval :=
  <["field_fr" := VStr ""]> ∅.

(** A catalog whose second code is a locale name with an underscore. *)
Definition env_pt_BR : Env :=
  {| settings :=
       {| LANGUAGES := [("en", "English")];
          LANGUAGE_CODE := "en";
          TRANSMETA_LANGUAGES :=
            Some [("en", "English"); ("pt_BR", "Brazilian Portuguese")];
          TRANSMETA_DEFAULT_LANGUAGE := None;
          TRANSMETA_MANDATORY_LANGUAGE := None |};
     get_language := "en" |}.

(** A stand-in for the host's class constructor on concrete declarations:
    the class keeps the mapping it is given and gets a fresh [_meta] that
    carries the [abstract] flag of [Meta]. *)
Definition plain_ModelBase_new (name : string) (bases : list klass)
    (attrs : gmap string attr) : exn + klass :=
  inr {| cls_name := name;
         cls_dict := attrs;
         cls_meta :=
           Some {| meta_abstract :=
                     match attrs !! "Meta" with
                     | Some (AMeta m) =>
                         match m !! "abstract" with
                         | Some (MOther (VBool true)) => true
                         | _ => false
                         end
                     | _ => false
                     end;
                   translatable_fields := None |} |}.

Definition declaration (meta : list (string * metaval))
    (body : list (string * attr)) : gmap string attr :=
  <["Meta" := AMeta (list_to_map meta)]> (list_to_map body).

(** [translate = ['x']] *)
Definition attrs_translate_list : gmap string attr :=
  declaration [("translate", MList ["x"])] [("x", AField title_field)].

(** [translate_mandatory = ['x']] *)
Definition attrs_mandatory_list : gmap string attr :=
  declaration [("translate_mandatory", MList ["x"])] [("x", AField title_field)].

(** [translate = ('title', 'subtitle')] with only [title] declared. *)
Definition attrs_missing_subtitle : gmap string attr :=
  declaration [("translate", MTuple ["title"; "subtitle"])]
              [("title", AField title_field)].

(** [translate = ('title', 'title_en')] with only [title] declared. *)
Definition attrs_title_title_en : gmap string attr :=
  declaration [("translate", MTuple ["title"; "title_en"])]
              [("title", AField title_field)].

(** [translate = ('title',)] *)
Definition attrs_translate_title : gmap string attr :=
  declaration [("translate", MTuple ["title"])] [("title", AField title_field)].

(** [translate_mandatory = ('title',)] *)
Definition attrs_mandatory_title : gmap string attr :=
  declaration [("translate_mandatory", MTuple ["title"])]
              [("title", AField title_field)].

(** An abstract model with [translate = ('title',)]. *)
Definition attrs_abstract_title : gmap string attr :=
  declaration [("abstract", MOther (VBool true)); ("translate", MTuple ["title"])]
              [("title", AField title_field)].

(** A model body that declares neither tuple. *)
Definition attrs_plain : gmap string attr :=
  list_to_map [("body", AField title_field)].

Definition registry_of (r : exn + klass) : option (list string) :=
  match r with
  | inr c =>
      match cls_meta c with
      | Some o => translatable_fields o
      | None => None
      end
  | inl _ => None
  end.

(** An abstract model that declares [translate = ('title',)], as class
    construction leaves it. *)
Definition TitledBase : klass :=
  {| cls_name := "TitledBase";
     cls_dict := snd (rewrite_attrs env_en_US "TitledBase" attrs_abstract_title);
     cls_meta := Some {| meta_abstract := true;
                         translatable_fields := Some ["title"] |} |}.

(** A second abstract model with the same registry. *)
Definition HeadedBase : klass :=
  {| cls_name := "HeadedBase";
     cls_dict := cls_dict TitledBase;
     cls_meta := cls_meta TitledBase |}.

(** The concrete subclass of [TitledBase] that declares neither tuple. *)
Definition Article : klass :=
  {| cls_name := "Article";
     cls_dict := attrs_plain;
     cls_meta := Some {| meta_abstract := false;
                         translatable_fields := Some ["title"] |} |}.

(** ** The rest of the module *)

(** [LazyString.__unicode__], which [__str__] returns as well:
    ['%s (%s)' % (proxy, lang)]. [gettext] is the translation the lazy
    label [_(lang_name)] takes when it is rendered. *)
Fixpoint render (gettext : string -> string) (v : verbose) : string :=
  match v with
  | VerbNone => "None"
  | VerbStr s => s
  | LazyString proxy lang =>
      render gettext proxy +:+ " (" +:+ gettext lang +:+ ")"
  end.

(** A class with its [__bases__], as [get_all_translatable_fields] walks it:
    [meta] is what [getattr(cls, '_meta', None)] gives. *)
#[warnings="-register-all"]
Inductive pyclass : Type :=
  | PyClass (meta : option Options) (bases : list pyclass).

Definition py_meta (c : pyclass) : option Options :=
  match c with PyClass meta _ => meta end.

Definition py_bases (c : pyclass) : list pyclass :=
  match c with PyClass _ bases => bases end.

(** [getattr(_meta, 'translatable_fields', [])] *)
Definition registry (o : Options) : list string :=
  match translatable_fields o with
  | Some l => l
  | None => []
  end.

(** The test that lets the walk enter a parent. *)
Definition walks_into (column_in_current_table : bool) (parent : pyclass) : bool :=
  match py_meta parent with
  | Some o => negb column_in_current_table || meta_abstract o
  | None => false
  end.

(** The body of [get_all_translatable_fields] on the set it updates in
    place; the set is threaded through the calls on the parents. *)
Fixpoint collect_translatable_fields (column_in_current_table : bool)
    (model : pyclass) (model_trans_fields : gset string) : exn + gset string :=
  match model with
  | PyClass meta bases =>
      match meta with
      | None => inl (AttributeError "_meta")
      | Some o =>
          (fix parents (l : list pyclass) (acc : gset string) : exn + gset string :=
             match l with
             | [] => inr acc
             | parent :: l' =>
                 if walks_into column_in_current_table parent then
                   match collect_translatable_fields column_in_current_table
                           parent acc with
                   | inl e => inl e
                   | inr acc' => parents l' acc'
                   end
                 else parents l' acc
             end) bases (model_trans_fields ∪ list_to_set (registry o))
      end
  end.

(** The loop over [model.__bases__] on its own, for the statements about
    it. *)
Fixpoint walk_parents (column_in_current_table : bool) (l : list pyclass)
    (acc : gset string) : exn + gset string :=
  match l with
  | [] => inr acc
  | parent :: l' =>
      if walks_into column_in_current_table parent then
        match collect_translatable_fields column_in_current_table parent acc with
        | inl e => inl e
        | inr acc' => walk_parents column_in_current_table l' acc'
        end
      else walk_parents column_in_current_table l' acc
  end.

(** The returned tuple lists the set in no specified order; the embedding
    returns the set. *)
Definition get_all_translatable_fields (model : pyclass)
    (model_trans_fields : option (gset string))
    (column_in_current_table : bool) : exn + gset string :=
  collect_translatable_fields column_in_current_table model
    (match model_trans_fields with
     | Some acc => acc
     | None => ∅
     end).

(** The classes the walk visits from [model]: the model and, through every
    parent the walk enters, the classes visited from that parent. *)
Inductive visited (column_in_current_table : bool) : pyclass -> pyclass -> Prop :=
  | visited_self model : visited column_in_current_table model model
  | visited_parent model parent c :
      parent ∈ py_bases model ->
      walks_into column_in_current_table parent = true ->
      visited column_in_current_table parent c ->
      visited column_in_current_table model c.

(** The names registered by the classes visited from [c]. *)
Definition registered_from (flag : bool) (c : pyclass) (x : string) : Prop :=
  exists d od, visited flag c d /\ py_meta d = Some od /\ x ∈ registry od.

(** The derived names of several original names. *)
Definition derived_names (env : Env) (names : list string) : list string :=
  flat_map (get_real_fieldname_in_each_language env) names.

(** ** Further concrete declarations *)

(** [translate = ('title',)] and [translate_mandatory = ('title',)] *)
Definition attrs_title_twice : gmap string attr :=
  declaration [("translate", MTuple ["title"]);
               ("translate_mandatory", MTuple ["title"])]
              [("title", AField title_field)].

(** [translate = ()] *)
Definition attrs_translate_empty : gmap string attr :=
  declaration [("translate", MTuple [])] [("body", AField title_field)].

Definition slug_field : Field :=
  {| kind := "SlugField"; name := None; null := false; blank := false;
     default := Some (VStr "untitled"); verbose_name := None;
     original_fieldname := None; options := [] |}.

(** [translate = ('title',)] and [translate_mandatory = ('slug',)], with
    an attribute that is no field. *)
Definition attrs_title_slug : gmap string attr :=
  declaration [("translate", MTuple ["title"]);
               ("translate_mandatory", MTuple ["slug"])]
              [("title", AField title_field); ("slug", AField slug_field);
               ("objects", AOther VNone)].

(** A concrete model under an abstract one under a concrete one. *)
Definition py_root : pyclass :=
  PyClass (Some {| meta_abstract := false; translatable_fields := Some ["name"] |}) [].

Definition py_abstract : pyclass :=
  PyClass (Some {| meta_abstract := true; translatable_fields := Some ["title"] |})
          [py_root].

Definition py_article : pyclass :=
  PyClass (Some {| meta_abstract := false; translatable_fields := Some ["body"] |})
          [py_abstract; PyClass None []].

(** Translations deactivated: [get_language()] returns [None]. *)
Definition runtime_deactivated : Runtime :=
  {| rt_settings := settings_en_fr; rt_language := None |}.

Definition runtime_en_US : Runtime :=
  {| rt_settings := settings_en_fr; rt_language := Some "en-US" |}.

(** A base of [Meta] that carries [translate = ('title',)]. *)
Definition inherited_translate : gmap string metaval :=
  {[ "translate" := MTuple ["title"] ]}.

(** A [Meta] that declares nothing itself. *)
Definition attrs_empty_Meta : gmap string attr :=
  declaration [] [("title", AField title_field)].

(** ** Strings *)

Lemma split_not_nil sep s : split sep s <> [].
Proof.
  destruct s as [|c s]; simpl; [discriminate|].
  destruct (Ascii.eqb c sep); [discriminate|].
  destruct (split sep s); discriminate.
Qed.

Lemma split_no_sep sep s : has_char sep s = false -> split sep s = [s].
Proof.
  induction s as [|c s IH]; simpl; [reflexivity|].
  intros H. apply orb_false_iff in H as [Hc Hs].
  rewrite Hc, (IH Hs). reflexivity.
Qed.

Lemma last_item_cons w ws : ws <> [] -> last_item (w :: ws) = last_item ws.
Proof. destruct ws; [congruence|reflexivity]. Qed.

Lemma split_singleton sep s w : split sep s = [w] -> has_char sep s = false.
Proof.
  revert w. induction s as [|d s IH]; simpl; intros w E; [reflexivity|].
  destruct (Ascii.eqb d sep).
  - injection E as _ E. destruct (split_not_nil _ _ E).
  - destruct (split sep s) as [|u [|u' us]] eqn:E'.
    + destruct (split_not_nil _ _ E').
    + simpl. eapply IH. reflexivity.
    + discriminate E.
Qed.

Lemma last_item_split_cons sep c s :
  last_item (split sep (String c s)) =
  if has_char sep s then last_item (split sep s) else
    if Ascii.eqb c sep then s else String c s.
Proof.
  simpl. destruct (has_char sep s) eqn:Hs.
  - destruct (Ascii.eqb c sep).
    + apply last_item_cons, split_not_nil.
    + destruct (split sep s) as [|w [|w' ws]] eqn:E.
      * destruct (split_not_nil _ _ E).
      * apply split_singleton in E. congruence.
      * reflexivity.
  - rewrite (split_no_sep _ _ Hs). destruct (Ascii.eqb c sep); reflexivity.
Qed.

Lemma last_item_split_app sep a b :
  has_char sep b = false ->
  last_item (split sep (a +:+ String sep b)) = b.
Proof.
  intros Hb. induction a as [|c a IH].
  - change (EmptyString +:+ String sep b) with (String sep b).
    rewrite last_item_split_cons, Hb, Ascii.eqb_refl. reflexivity.
  - change (String c a +:+ String sep b) with (String c (a +:+ String sep b)).
    rewrite last_item_split_cons.
    assert (Hin : has_char sep (a +:+ String sep b) = true).
    { clear. induction a as [|d a IH]; simpl.
      - rewrite Ascii.eqb_refl. reflexivity.
      - rewrite IH. apply orb_true_r. }
    rewrite Hin. exact IH.
Qed.

Lemma first_item_split sep s :
  has_char sep (first_item (split sep s)) = false /\
  (s = first_item (split sep s) \/
   exists rest, s = first_item (split sep s) +:+ String sep rest).
Proof.
  induction s as [|c s [IH1 IH2]]; simpl.
  - split; [reflexivity|left; reflexivity].
  - destruct (Ascii.eqb c sep) eqn:Hc.
    + apply Ascii.eqb_eq in Hc. subst c. simpl.
      split; [reflexivity|right; exists s; reflexivity].
    + generalize (split_not_nil sep s). unfold first_item in *.
      destruct (split sep s) as [|w ws]; [congruence|]. intros _. simpl in *.
      rewrite Hc, IH1. split; [reflexivity|].
      destruct IH2 as [->|[rest ->]]; [left; reflexivity|].
      right. exists rest. reflexivity.
Qed.

Lemma prefix_app p s : String.prefix p (p +:+ s) = true.
Proof.
  induction p as [|c p IH]; simpl; [destruct s; reflexivity|].
  destruct (ascii_dec c c); [exact IH|congruence].
Qed.

Lemma contains_prefix p s : String.prefix p s = true -> contains p s = true.
Proof. intros H. destruct s; cbn [contains]; rewrite H; reflexivity. Qed.

Lemma contains_app a p b : contains p (a +:+ p +:+ b) = true.
Proof.
  induction a as [|c a IH].
  - apply contains_prefix. change (String.prefix p (p +:+ b) = true).
    apply prefix_app.
  - change (String c a +:+ p +:+ b) with (String c (a +:+ p +:+ b)).
    cbn [contains]. rewrite IH. apply orb_true_r.
Qed.

(** ** The fallback resolver *)

Section Resolver.

Variable env : Env.

Lemma getattr_truthy (self : gmap string pyval) n :
  truthy (getattr_or_None self n) = true ->
  getattr self n = inr (getattr_or_None self n).
Proof.
  unfold getattr, getattr_or_None.
  destruct (self !! n); [reflexivity|discriminate].
Qed.

(** The getter computes the first truthy value of the chain when there is
    one, and the value of the chain's last name otherwise. *)
Lemma default_value_chain field (self : gmap string pyval) :
  default_value env field self =
  inr match first_truthy (map (getattr_or_None self) (fallback_chain env field)) with
      | Some v => v
      | None => getattr_or_None self
                  (get_real_fieldname env field
                     (Some (LANGUAGE_CODE (settings env))))
      end.
Proof.
  unfold default_value, fallback_chain. cbn [map first_truthy].
  destruct (truthy (getattr_or_None self
              (get_real_fieldname env field (Some (get_language env))))) eqn:H1.
  { apply getattr_truthy, H1. }
  destruct (truthy (getattr_or_None self
              (get_real_fieldname env field
                 (Some (String.substring 0 2 (get_language env)))))) eqn:H2.
  { apply getattr_truthy, H2. }
  destruct (truthy (getattr_or_None self
              (get_real_fieldname env field (Some (fallback_language env))))) eqn:H3.
  { reflexivity. }
  destruct (truthy (getattr_or_None self
              (get_real_fieldname env field
                 (Some (LANGUAGE_CODE (settings env)))))); reflexivity.
Qed.

End Resolver.

(** C1. Reading the virtual accessor of a translatable field returns the
    first truthy value along the chain: the field for the full current
    language code, for its first two characters, for the fallback language,
    for the global default language code. *)
Theorem default_value_first_truthy env field (self : gmap string pyval) v :
  first_truthy (map (getattr_or_None self) (fallback_chain env field)) = Some v ->
  default_value env field self = inr v.
Proof. intros H. rewrite default_value_chain, H. reflexivity. Qed.

(** With current language "en-US", fallback "fr", default "en" and the
    values field_en = "", field_fr = "Bonjour", field_en_US = None, the
    accessor returns "Bonjour". *)
Lemma default_value_bonjour :
  fallback_chain env_en_US "field" =
    ["field_en-US"; "field_en"; "field_fr"; "field_en"] /\
  first_truthy (map (getattr_or_None instance_bonjour)
                    (fallback_chain env_en_US "field")) = Some (VStr "Bonjour") /\
  default_value env_en_US "field" instance_bonjour = inr (VStr "Bonjour").
Proof.
  split; [reflexivity|]. split; [vm_compute; reflexivity|].
  apply (default_value_first_truthy env_en_US "field" instance_bonjour).
  vm_compute. reflexivity.
Defined.

Lemma default_value_func_active rt field (self : gmap string pyval) lang :
  rt_language rt = Some lang ->
  default_value_func rt field self =
  default_value (env_with (rt_settings rt) lang) field self.
Proof.
  intros H.
  unfold default_value_func, default_value, get_real_fieldname_rt,
    get_language_2, fallback_language_rt, fallback_language, get_real_fieldname.
  rewrite H. cbn [exn_bind settings get_language env_with].
  repeat match goal with
         | |- context [if truthy ?v then _ else _] => destruct (truthy v)
         end; reflexivity.
Qed.

Lemma default_value_func_deactivated rt field (self : gmap string pyval) :
  rt_language rt = None ->
  default_value_func rt field self = inl (AttributeError "split").
Proof.
  intros H. unfold default_value_func, get_real_fieldname_rt.
  rewrite H. reflexivity.
Qed.

(** C2 (as the code has it). While [get_language()] returns a language
    code, reading the virtual accessor never raises, and when no value of
    the chain is truthy the result is the value stored for the global
    default language code, [None] when there is none. *)
Theorem default_value_func_never_raises rt field (self : gmap string pyval) lang :
  rt_language rt = Some lang ->
  (exists v, default_value_func rt field self = inr v) /\
  (first_truthy (map (getattr_or_None self)
                     (fallback_chain (env_with (rt_settings rt) lang) field)) = None ->
   default_value_func rt field self =
   inr (getattr_or_None self (field +:+ "_" +:+ LANGUAGE_CODE (rt_settings rt)))).
Proof.
  intros H. rewrite (default_value_func_active rt field self lang H).
  rewrite default_value_chain. split; [eexists; reflexivity|].
  intros ->. reflexivity.
Qed.

Lemma default_value_func_untranslated :
  (exists v, default_value_func runtime_en_US "field" instance_untranslated = inr v) /\
  default_value_func runtime_en_US "field" instance_untranslated = inr VNone.
Proof.
  destruct (default_value_func_never_raises runtime_en_US "field"
              instance_untranslated "en-US" eq_refl) as [Hv Hnone].
  split; [exact Hv|]. apply Hnone. vm_compute. reflexivity.
Defined.

(** While translations are deactivated [get_language()] returns [None], and
    building the first name of the chain raises. *)
Lemma default_value_func_raises_without_language :
  default_value_func runtime_deactivated "field" instance_bonjour =
    inl (AttributeError "split") /\
  ~ (exists v, default_value_func runtime_deactivated "field" instance_bonjour =
               inr v).
Proof.
  split; [reflexivity|]. intros (v & H). vm_compute in H. discriminate H.
Qed.

(** ** The field-name helpers *)

(** C10. Without an explicit language, the derived name is the field name,
    an underscore and the current language code cut at its first hyphen: the
    language part holds no hyphen and is the whole code or what precedes
    its first hyphen. *)
Theorem get_real_fieldname_current_language env field :
  exists primary,
    get_real_fieldname env field None = field +:+ "_" +:+ primary /\
    has_char "-" primary = false /\
    (get_language env = primary \/
     exists region, get_language env = primary +:+ String "-" region).
Proof.
  exists (first_item (split "-" (get_language env))).
  split; [reflexivity|]. apply first_item_split.
Qed.

Example get_real_fieldname_en_US :
  get_real_fieldname env_en_US "field" None = "field_en".
Proof. reflexivity. Qed.

Example get_field_language_name_en :
  get_field_language "name_en" = "en".
Proof. reflexivity. Qed.

Lemma append_inv_head a b c : a +:+ b = a +:+ c -> b = c.
Proof.
  induction a as [|x a IH]; simpl; intros H; [exact H|].
  injection H as H. exact (IH H).
Qed.

Lemma append_cons_ne a x b : a +:+ String x b <> a.
Proof.
  induction a as [|y a IH]; simpl; [discriminate|].
  intros H. injection H as H. exact (IH H).
Qed.

Lemma get_real_fieldname_inj env field l1 l2 :
  get_real_fieldname env field (Some l1) = get_real_fieldname env field (Some l2) ->
  l1 = l2.
Proof.
  unfold get_real_fieldname. intros H.
  apply append_inv_head in H. injection H as H. exact H.
Qed.

Lemma get_real_fieldname_ne_field env field l :
  get_real_fieldname env field (Some l) <> field.
Proof. apply append_cons_ne. Qed.

(** ** The generated fields *)

Section GeneratedField.

Variable env : Env.
Variables (fields : list string) (field : string).
Variables (original : Field) (lang : language).

Lemma lang_attr_copy :
  kind (lang_attr env fields field original lang) = kind original /\
  name (lang_attr env fields field original lang) = name original /\
  default (lang_attr env fields field original lang) = default original /\
  options (lang_attr env fields field original lang) = options original /\
  original_fieldname (lang_attr env fields field original lang) = Some field.
Proof.
  unfold lang_attr.
  repeat match goal with
         | |- context [if ?b then _ else _] => destruct b
         | |- context [match verbose_name ?a with _ => _ end] =>
             destruct (verbose_name a)
         end; simpl; auto.
Qed.

Lemma lang_attr_null_blank :
  null (lang_attr env fields field original lang) =
    (if bool_decide (fst lang ≠ mandatory_language env) &&
        bool_decide (field ∈ fields) &&
        negb (null original) && is_NOT_PROVIDED (default original)
     then true else null original) /\
  blank (lang_attr env fields field original lang) =
    (if bool_decide (fst lang ≠ mandatory_language env) &&
        bool_decide (field ∈ fields)
     then true else blank original).
Proof.
  unfold lang_attr.
  destruct (bool_decide (fst lang ≠ mandatory_language env));
    destruct (bool_decide (field ∈ fields));
    destruct original as [k n nu bl d [v|] o opts];
    destruct nu, bl, d; simpl; auto.
Qed.

Lemma lang_attr_verbose_name :
  verbose_name (lang_attr env fields field original lang) =
  match verbose_name original with
  | Some v => Some (LazyString v (snd lang))
  | None => None
  end.
Proof.
  unfold lang_attr.
  destruct (bool_decide (fst lang ≠ mandatory_language env));
    destruct (bool_decide (field ∈ fields));
    destruct original as [k n nu bl d [v|] o opts];
    destruct nu, bl, d; simpl; auto.
Qed.

End GeneratedField.

(** C4. For a field listed in [translate], the field generated for a
    language other than the mandatory one gets [null = True] exactly when the
    original was non-null with no explicit default (otherwise [null] is the
    original's) and always gets [blank = True]; the field generated for the
    mandatory language keeps the original [null] and [blank]. *)
Theorem translate_field_relaxed env fields field original lang :
  field ∈ fields ->
  (fst lang <> mandatory_language env ->
     null (lang_attr env fields field original lang) =
       (if negb (null original) && is_NOT_PROVIDED (default original)
        then true else null original) /\
     (null (lang_attr env fields field original lang) <> null original <->
        null original = false /\ default original = None) /\
     blank (lang_attr env fields field original lang) = true) /\
  (fst lang = mandatory_language env ->
     null (lang_attr env fields field original lang) = null original /\
     blank (lang_attr env fields field original lang) = blank original).
Proof.
  intros Hin.
  destruct (lang_attr_null_blank env fields field original lang) as [-> ->].
  rewrite (bool_decide_eq_true_2 _ Hin). split; intros Hl.
  - rewrite (bool_decide_eq_true_2 _ Hl). simpl. split; [reflexivity|].
    split; [|reflexivity].
    destruct (null original), (default original); simpl;
      intuition congruence.
  - rewrite bool_decide_eq_false_2 by (intros H; exact (H Hl)). auto.
Qed.

Lemma translate_field_relaxed_fr :
  null (lang_attr env_en_US ["title"] "title" title_field ("fr", "French")) = true /\
  blank (lang_attr env_en_US ["title"] "title" title_field ("fr", "French")) = true /\
  null (lang_attr env_en_US ["title"] "title" title_field ("en", "English")) = false /\
  blank (lang_attr env_en_US ["title"] "title" title_field ("en", "English")) = false.
Proof.
  assert (Hin : "title" ∈ ["title"]) by (apply list_elem_of_here).
  destruct (translate_field_relaxed env_en_US ["title"] "title" title_field
              ("fr", "French") Hin) as [Hfr _].
  destruct (translate_field_relaxed env_en_US ["title"] "title" title_field
              ("en", "English") Hin) as [_ Hen].
  assert (Hne : fst ("fr", "French") <> mandatory_language env_en_US)
    by (simpl; discriminate).
  destruct (Hfr Hne) as (Hn & _ & Hb).
  destruct (Hen eq_refl) as (Hn' & Hb').
  rewrite Hn, Hb, Hn', Hb'. simpl. auto.
Defined.

(** C5 (as the code has it). For a field listed in [translate_mandatory]
    and not in [translate], the fields generated for every language, the
    mandatory one or not, keep the original [null] and [blank]: the
    relaxation is guarded by membership in [translate]. *)
Theorem mandatory_field_not_relaxed env fields field original lang :
  field ∉ fields ->
  null (lang_attr env fields field original lang) = null original /\
  blank (lang_attr env fields field original lang) = blank original.
Proof.
  intros Hin.
  destruct (lang_attr_null_blank env fields field original lang) as [-> ->].
  rewrite (bool_decide_eq_false_2 _ Hin), andb_false_r. auto.
Qed.

Lemma mandatory_field_not_relaxed_fr :
  null (lang_attr env_en_US [] "title" title_field ("fr", "French")) = false /\
  blank (lang_attr env_en_US [] "title" title_field ("fr", "French")) = false.
Proof.
  apply (mandatory_field_not_relaxed env_en_US [] "title" title_field
           ("fr", "French")).
  apply not_elem_of_nil.
Defined.

(** C8 (as the code has it). For a language code without an underscore,
    the language read back from the derived name is that code, and the
    canonical name of the field generated for it is the original name. *)
Theorem fieldname_round_trip env fields field original lang :
  has_char "_" (fst lang) = false ->
  get_field_language (get_real_fieldname env field (Some (fst lang))) = fst lang /\
  canonical_fieldname (lang_attr env fields field original lang) = Some field.
Proof.
  intros H. split.
  - unfold get_field_language, get_real_fieldname.
    apply (last_item_split_app "_" field (fst lang) H).
  - unfold canonical_fieldname.
    destruct (lang_attr_copy env fields field original lang) as (_ & _ & _ & _ & ->).
    reflexivity.
Qed.

Lemma fieldname_round_trip_fr :
  get_field_language (get_real_fieldname env_en_US "title" (Some "fr")) = "fr" /\
  canonical_fieldname
    (lang_attr env_en_US ["title"] "title" title_field ("fr", "French")) =
  Some "title".
Proof.
  apply (fieldname_round_trip env_en_US ["title"] "title" title_field
           ("fr", "French")).
  reflexivity.
Defined.

(** A catalog code with an underscore is not read back: from "title_pt_BR"
    the helper returns "BR". *)
Lemma fieldname_round_trip_pt_BR :
  In ("pt_BR", "Brazilian Portuguese") (get_languages env_pt_BR) /\
  get_field_language (get_real_fieldname env_pt_BR "title" (Some "pt_BR")) = "BR" /\
  ~ (get_field_language (get_real_fieldname env_pt_BR "title" (Some "pt_BR")) =
     "pt_BR").
Proof.
  split; [simpl; auto|]. split; [reflexivity|].
  vm_compute. discriminate.
Qed.

(** ** Statements over the attribute mapping *)

Lemma bind_inr {A B : Type} (m : M A) (k : A -> M B) s x s' :
  m s = (inr x, s') -> (m ≫= k) s = k x s'.
Proof. unfold mbind, M_bind. intros ->. reflexivity. Qed.

Lemma bind_inl {A B : Type} (m : M A) (k : A -> M B) s e s' :
  m s = (inl e, s') -> (m ≫= k) s = (inl e, s').
Proof. unfold mbind, M_bind. intros ->. reflexivity. Qed.

Lemma for_each_app_raise {A : Type} (body : A -> M unit) before x after s s1 e s2 :
  for_each before body s = (inr tt, s1) ->
  body x s1 = (inl e, s2) ->
  for_each (before ++ x :: after) body s = (inl e, s2).
Proof.
  revert s. induction before as [|y before IH]; simpl; intros s Hb Hx.
  - injection Hb as <-. apply (bind_inl _ _ _ _ _ Hx).
  - unfold mbind, M_bind in *. destruct (body y s) as [[e'|[]] s'].
    + discriminate Hb.
    + apply IH; assumption.
Qed.

Lemma for_each_set_item {A : Type} (key : A -> string) (val : A -> attr) l s :
  for_each l (fun x => set_item (key x) (val x)) s = (inr tt, set_items key val l s).
Proof.
  revert s. induction l as [|x l IH]; intros s; [reflexivity|].
  simpl. unfold mbind, M_bind, set_item at 1. apply IH.
Qed.

Lemma lookup_set_items_notin {A : Type} (key : A -> string) (val : A -> attr) l s k :
  k ∉ map key l -> set_items key val l s !! k = s !! k.
Proof.
  revert s. induction l as [|x l IH]; intros s Hk; [reflexivity|].
  simpl in *. apply not_elem_of_cons in Hk as [Hx Hl].
  unfold set_items in *. simpl. rewrite (IH _ Hl).
  apply lookup_insert_ne. congruence.
Qed.

Lemma lookup_set_items_in {A : Type} (key : A -> string) (val : A -> attr) l s x :
  NoDup (map key l) -> x ∈ l ->
  set_items key val l s !! key x = Some (val x).
Proof.
  revert s. induction l as [|y l IH]; intros s Hnd Hx.
  - apply elem_of_nil in Hx as [].
  - simpl in Hnd. apply NoDup_cons in Hnd as [Hy Hnd].
    unfold set_items in *. simpl.
    apply elem_of_cons in Hx as [->|Hx].
    + fold (set_items key val l (<[key y := val y]> s)).
      rewrite (lookup_set_items_notin _ _ _ _ _ Hy). apply lookup_insert_eq.
    + apply IH; assumption.
Qed.

Lemma lookup_set_items_elem {A : Type} (key : A -> string) (val : A -> attr) l s k :
  k ∈ map key l ->
  exists y, y ∈ l /\ key y = k /\ set_items key val l s !! k = Some (val y).
Proof.
  revert s. induction l as [|x l IH]; intros s Hk.
  - apply elem_of_nil in Hk as [].
  - change (set_items key val (x :: l) s)
      with (set_items key val l (<[key x := val x]> s)).
    destruct (decide (k ∈ map key l)) as [Hl|Hl].
    + destruct (IH (<[key x := val x]> s) Hl) as (y & Hy & Hky & Hlook).
      exists y. split; [apply list_elem_of_further, Hy|]. split; assumption.
    + simpl in Hk. apply elem_of_cons in Hk as [Hx|Hk]; [|destruct (Hl Hk)].
      exists x. split; [apply list_elem_of_here|]. split; [congruence|].
      rewrite (lookup_set_items_notin _ _ _ _ _ Hl). subst k.
      apply lookup_insert_eq.
Qed.

Section Expansion.

Variable env : Env.
Variables (name : string) (fields : list string).

Lemma field_not_derived field :
  field ∉ get_real_fieldname_in_each_language env field.
Proof.
  unfold get_real_fieldname_in_each_language. intros H.
  apply list_elem_of_fmap in H as (lang & H & _).
  symmetry in H. exact (get_real_fieldname_ne_field _ _ _ H).
Qed.

Lemma expand_field_ok field original s :
  s !! field = Some (AField original) ->
  expand_field env name fields field s =
  (inr tt, expanded env fields field original s).
Proof.
  intros Hs. unfold expand_field.
  rewrite (bind_inr _ _ s tt s) by (unfold check_field_in_model; rewrite Hs; reflexivity).
  rewrite (bind_inr _ _ s (AField original) s) by (unfold get_item; rewrite Hs; reflexivity).
  erewrite bind_inr by apply for_each_set_item.
  fold (with_lang_attrs env fields field original s).
  assert (Hl : with_lang_attrs env fields field original s !! field = Some (AField original)).
  { unfold with_lang_attrs. rewrite lookup_set_items_notin; [exact Hs|].
    apply field_not_derived. }
  erewrite bind_inr by (unfold del_item; rewrite Hl; reflexivity).
  reflexivity.
Qed.

Lemma expand_field_raise field s :
  (forall f, s !! field <> Some (AField f)) ->
  expand_field env name fields field s =
  (inl (ImproperlyConfigured (no_field_message field name)), s).
Proof.
  intros Hs. unfold expand_field. apply bind_inl.
  unfold check_field_in_model.
  destruct (s !! field) as [[f| | |]|] eqn:E; try reflexivity.
  destruct (Hs f eq_refl).
Qed.

End Expansion.

Lemma get_translatable_cases meta_field s :
  (exists e s', get_translatable meta_field s = (inl e, s')) \/
  (exists items s', get_translatable meta_field s = (inr (items, true), s')) \/
  get_translatable meta_field s = (inr ([], false), s).
Proof.
  unfold get_translatable.
  destruct (s !! "Meta") as [[f|m|p|v]|]; auto.
  destruct (m !! meta_field) as [[items|items|v]|]; eauto 6.
Qed.

(** ** Configuration errors *)

(** C6 (as the code has it). When [translate] or [translate_mandatory] is
    present on [Meta] and is not a tuple, class construction raises the
    configuration error with the fixed message [tuple_message], which
    names [translate]; the mapping reached then differs from the declared
    one in [Meta] only, so no field has been expanded. *)
Theorem non_tuple_is_rejected env MB name bases (attrs : gmap string attr)
    m meta_field v :
  attrs !! "Meta" = Some (AMeta m) ->
  meta_field = "translate" \/ meta_field = "translate_mandatory" ->
  m !! meta_field = Some v ->
  (forall items, v <> MTuple items) ->
  exists attrs' : gmap string attr,
    rewrite_attrs env name attrs = (inl (ImproperlyConfigured tuple_message), attrs') /\
    (forall k, k <> "Meta" -> attrs' !! k = attrs !! k) /\
    TransMeta_new env MB name bases attrs = inl (ImproperlyConfigured tuple_message) /\
    contains "translate" tuple_message = true.
Proof.
  intros HM Hf Hv Hnt.
  assert (Hfail : forall (s : gmap string attr) m',
            s !! "Meta" = Some (AMeta m') -> m' !! meta_field = Some v ->
            get_translatable meta_field s =
            (inl (ImproperlyConfigured tuple_message),
             <["Meta" := AMeta (delete meta_field m')]> s)).
  { intros s m' Hs Hm'. unfold get_translatable. rewrite Hs, Hm'.
    destruct v as [items| |]; [destruct (Hnt items eq_refl)|reflexivity..]. }
  assert (Hgoal : exists attrs' : gmap string attr,
            rewrite_attrs env name attrs =
              (inl (ImproperlyConfigured tuple_message), attrs') /\
            (forall k, k <> "Meta" -> attrs' !! k = attrs !! k)).
  { destruct Hf as [-> | ->].
    - eexists. split.
      + unfold rewrite_attrs. apply bind_inl. apply (Hfail _ _ HM Hv).
      + intros k Hk. apply lookup_insert_ne. congruence.
    - unfold rewrite_attrs.
      destruct (m !! "translate") as [[items|items|w]|] eqn:Ht.
      + eexists. split.
        * erewrite bind_inr
            by (unfold get_translatable; rewrite HM, Ht; reflexivity).
          apply bind_inl. apply (Hfail _ (delete "translate" m)).
          -- apply lookup_insert_eq.
          -- rewrite lookup_delete_ne by discriminate. exact Hv.
        * intros k Hk. rewrite !lookup_insert_ne by congruence. reflexivity.
      + eexists. split.
        * apply bind_inl. unfold get_translatable. rewrite HM, Ht. reflexivity.
        * intros k Hk. apply lookup_insert_ne. congruence.
      + eexists. split.
        * apply bind_inl. unfold get_translatable. rewrite HM, Ht. reflexivity.
        * intros k Hk. apply lookup_insert_ne. congruence.
      + eexists. split.
        * erewrite bind_inr
            by (unfold get_translatable; rewrite HM, Ht; reflexivity).
          apply bind_inl. apply (Hfail _ _ HM Hv).
        * intros k Hk. apply lookup_insert_ne. congruence. }
  destruct Hgoal as (attrs' & Hr & Hk). exists attrs'.
  split; [exact Hr|]. split; [exact Hk|]. split; [|reflexivity].
  unfold TransMeta_new. rewrite Hr. reflexivity.
Qed.

Lemma non_tuple_is_rejected_list :
  TransMeta_new env_en_US plain_ModelBase_new "Article" [] attrs_translate_list =
    inl (ImproperlyConfigured tuple_message) /\
  snd (rewrite_attrs env_en_US "Article" attrs_translate_list) !! "x" =
    Some (AField title_field).
Proof.
  destruct (non_tuple_is_rejected env_en_US plain_ModelBase_new "Article" []
              attrs_translate_list (list_to_map [("translate", MList ["x"])])
              "translate" (MList ["x"]))
    as (attrs' & Hr & Hk & Hn & _).
  - reflexivity.
  - left. reflexivity.
  - reflexivity.
  - intros items. discriminate.
  - split; [exact Hn|]. rewrite Hr. simpl. rewrite Hk by discriminate.
    reflexivity.
Defined.

(** When the offending attribute is [translate_mandatory], the message
    does not name it. *)
Lemma tuple_message_omits_translate_mandatory :
  ~ (exists msg,
       TransMeta_new env_en_US plain_ModelBase_new "Article" []
         attrs_mandatory_list = inl (ImproperlyConfigured msg) /\
       contains "translate_mandatory" msg = true).
Proof.
  intros (msg & H & Hc). vm_compute in H. injection H as <-.
  vm_compute in Hc. discriminate Hc.
Qed.

Lemma append_assoc a b c : (a +:+ b) +:+ c = a +:+ (b +:+ c).
Proof.
  induction a as [|x a IH]; [reflexivity|].
  change (String x ((a +:+ b) +:+ c) = String x (a +:+ (b +:+ c))).
  rewrite IH. reflexivity.
Qed.

Lemma no_field_message_names field name :
  contains field (no_field_message field name) = true /\
  contains name (no_field_message field name) = true.
Proof.
  unfold no_field_message. split.
  - apply contains_app.
  - rewrite <- (append_assoc field " in model ").
    rewrite <- (append_assoc "There is no field ").
    apply contains_app.
Qed.

Lemma rewrite_attrs_unfold env name (attrs : gmap string attr)
    fields t1 a1 mandatory t2 a2 :
  get_translatable "translate" attrs = (inr (fields, t1), a1) ->
  get_translatable "translate_mandatory" a1 = (inr (mandatory, t2), a2) ->
  rewrite_attrs env name attrs =
  if t1 || t2 then
    (for_each (fields ++ mandatory) (expand_field env name fields) ≫= fun _ =>
     mret (fields, mandatory, true)) a2
  else (inr (fields, mandatory, false), a2).
Proof.
  intros H1 H2. unfold rewrite_attrs.
  rewrite (bind_inr _ _ _ _ _ H1). rewrite (bind_inr _ _ _ _ _ H2).
  destruct (t1 || t2); reflexivity.
Qed.

(** C7 (as the code has it). A name listed in [translate] or
    [translate_mandatory] that is not bound to a field object when the
    expansion loop reaches it, in the mapping as the names listed before it
    have left it, makes class construction raise a configuration error
    whose message holds that name and the model name. *)
Theorem missing_field_is_rejected env MB name bases (attrs : gmap string attr)
    fields t1 a1 mandatory t2 a2 before field after a3 :
  get_translatable "translate" attrs = (inr (fields, t1), a1) ->
  get_translatable "translate_mandatory" a1 = (inr (mandatory, t2), a2) ->
  t1 || t2 = true ->
  (fields ++ mandatory)%list = (before ++ field :: after)%list ->
  for_each before (expand_field env name fields) a2 = (inr tt, a3) ->
  (forall f, a3 !! field <> Some (AField f)) ->
  TransMeta_new env MB name bases attrs =
    inl (ImproperlyConfigured (no_field_message field name)) /\
  contains field (no_field_message field name) = true /\
  contains name (no_field_message field name) = true.
Proof.
  intros H1 H2 Ht Hsplit Hbefore Hfield.
  split; [|apply no_field_message_names].
  assert (Hr : rewrite_attrs env name attrs =
               (inl (ImproperlyConfigured (no_field_message field name)), a3)).
  { rewrite (rewrite_attrs_unfold _ _ _ _ _ _ _ _ _ H1 H2), Ht, Hsplit.
    apply bind_inl. eapply for_each_app_raise; [exact Hbefore|].
    apply expand_field_raise, Hfield. }
  unfold TransMeta_new. rewrite Hr. reflexivity.
Qed.

Lemma missing_field_is_rejected_subtitle :
  TransMeta_new env_en_US plain_ModelBase_new "Article" [] attrs_missing_subtitle =
    inl (ImproperlyConfigured
           "There is no field subtitle in model Article, as specified in Meta's translate attribute").
Proof.
  refine (proj1 (missing_field_is_rejected env_en_US plain_ModelBase_new
                   "Article" [] attrs_missing_subtitle
                   ["title"; "subtitle"] true _ [] false _
                   ["title"] "subtitle" [] _ _ _ _ _ _ _)).
  - vm_compute. reflexivity.
  - vm_compute. reflexivity.
  - reflexivity.
  - reflexivity.
  - vm_compute. reflexivity.
  - intros f. vm_compute. discriminate.
Defined.

(** A listed name that the declaration does not bind, but that is the
    derived name of a name listed before it, raises nothing. *)
Lemma undeclared_derived_name_is_accepted :
  attrs_title_title_en !! "title_en" = None /\
  fst (rewrite_attrs env_en_US "Article" attrs_title_title_en) =
    inr (["title"; "title_en"], [], true) /\
  ~ (exists msg,
       TransMeta_new env_en_US plain_ModelBase_new "Article" []
         attrs_title_title_en = inl (ImproperlyConfigured msg)).
Proof.
  split; [vm_compute; reflexivity|]. split; [vm_compute; reflexivity|].
  intros (msg & H). vm_compute in H. discriminate H.
Qed.

(** ** Field expansion *)

Lemma derived_names_NoDup env field :
  NoDup (map fst (get_languages env)) ->
  NoDup (get_real_fieldname_in_each_language env field).
Proof.
  unfold get_real_fieldname_in_each_language. intros H.
  replace (map (fun lang : language => get_real_fieldname env field (Some (fst lang)))
               (get_languages env))
    with (map (fun code => get_real_fieldname env field (Some code))
              (map fst (get_languages env))) by apply map_map.
  assert (Hinj : Inj (=) (=) (fun code => get_real_fieldname env field (Some code))).
  { intros c1 c2. apply get_real_fieldname_inj. }
  apply (NoDup_fmap_2 _ _ H).
Qed.

Section SingleField.

Variable env : Env.
Variables (f : string) (original : Field).
Variable s : gmap string attr.

Lemma lookup_expanded_field : expanded env [f] f original s !! f = Some (AProperty f).
Proof. apply lookup_insert_eq. Qed.

Lemma lookup_expanded_with_lang_attrs k :
  k <> f ->
  expanded env [f] f original s !! k = with_lang_attrs env [f] f original s !! k.
Proof.
  intros Hk. unfold expanded.
  rewrite lookup_insert_ne by congruence.
  apply lookup_delete_ne. congruence.
Qed.

(** Whatever the catalog, a derived name is bound to the field generated
    for a catalog entry with that code. *)
Lemma lookup_expanded_derived_elem lang :
  lang ∈ get_languages env ->
  exists lang', lang' ∈ get_languages env /\ fst lang' = fst lang /\
    expanded env [f] f original s !! get_real_fieldname env f (Some (fst lang)) =
    Some (AField (lang_attr env [f] f original lang')).
Proof.
  intros Hl.
  rewrite lookup_expanded_with_lang_attrs by apply get_real_fieldname_ne_field.
  destruct (lookup_set_items_elem
              (fun lang : language => get_real_fieldname env f (Some (fst lang)))
              (fun lang => AField (lang_attr env [f] f original lang))
              (get_languages env) s
              (get_real_fieldname env f (Some (fst lang))))
    as (lang' & Hl' & Hk & Hlook).
  - apply list_elem_of_fmap. exists lang. split; [reflexivity|exact Hl].
  - exists lang'. split; [exact Hl'|]. split; [|exact Hlook].
    apply (get_real_fieldname_inj _ _ _ _ Hk).
Qed.

(** With pairwise distinct codes, it is the field generated for that very
    entry. *)
Lemma lookup_expanded_derived lang :
  NoDup (map fst (get_languages env)) ->
  lang ∈ get_languages env ->
  expanded env [f] f original s !! get_real_fieldname env f (Some (fst lang)) =
  Some (AField (lang_attr env [f] f original lang)).
Proof.
  intros Hnodup Hl.
  rewrite lookup_expanded_with_lang_attrs by apply get_real_fieldname_ne_field.
  unfold with_lang_attrs.
  apply (lookup_set_items_in
           (fun lang : language => get_real_fieldname env f (Some (fst lang)))
           (fun lang => AField (lang_attr env [f] f original lang))).
  - apply (derived_names_NoDup env f Hnodup).
  - exact Hl.
Qed.

Lemma lookup_expanded_other k :
  k <> f -> k ∉ get_real_fieldname_in_each_language env f ->
  expanded env [f] f original s !! k = s !! k.
Proof.
  intros Hk Hd. rewrite lookup_expanded_with_lang_attrs by exact Hk.
  apply lookup_set_items_notin. exact Hd.
Qed.

Lemma stored_fields_expanded :
  dom (stored_fields (expanded env [f] f original s)) =
  dom (stored_fields s) ∖ {[f]} ∪
  list_to_set (get_real_fieldname_in_each_language env f).
Proof.
  apply set_eq. intros k.
  rewrite elem_of_union, elem_of_difference, !elem_of_dom, elem_of_singleton,
    elem_of_list_to_set.
  unfold stored_fields. rewrite !lookup_omap.
  destruct (decide (k = f)) as [->|Hk].
  - rewrite lookup_expanded_field. simpl. split.
    + intros [x Hx]. discriminate Hx.
    + intros [[_ H]|H]; [destruct (H eq_refl)|].
      destruct (field_not_derived env f H).
  - destruct (decide (k ∈ get_real_fieldname_in_each_language env f)) as [Hd|Hd].
    + split; [intros _; right; exact Hd|intros _].
      unfold get_real_fieldname_in_each_language in Hd.
      apply list_elem_of_fmap in Hd as (lang & -> & Hl).
      destruct (lookup_expanded_derived_elem lang Hl) as (lang' & _ & _ & ->).
      simpl. eauto.
    + rewrite (lookup_expanded_other k Hk Hd). split.
      * intros H. left. split; assumption.
      * intros [[H _]|H]; [exact H|destruct (Hd H)].
Qed.

End SingleField.

(** C3. For a model that declares [translate = (f,)], the rewritten mapping
    binds every derived name [f_<code>] of the catalog to a copy of the
    declaration of [f] that carries [original_fieldname = f]; the names bound
    to fields are the declared ones, minus [f], plus the derived names; [f]
    is bound to the property of the fallback resolver and every other name
    is bound as declared. Over a catalog of N languages (N distinct codes)
    the derived names are N distinct names, one per catalog language. *)
Theorem single_field_expansion env model (attrs : gmap string attr) m f original :
  attrs !! "Meta" = Some (AMeta m) ->
  m !! "translate" = Some (MTuple [f]) ->
  m !! "translate_mandatory" = None ->
  attrs !! f = Some (AField original) ->
  exists attrs' : gmap string attr,
    rewrite_attrs env model attrs = (inr ([f], [], true), attrs') /\
    (forall lang, lang ∈ get_languages env ->
       exists g lang',
         attrs' !! get_real_fieldname env f (Some (fst lang)) = Some (AField g) /\
         lang' ∈ get_languages env /\ fst lang' = fst lang /\
         g = lang_attr env [f] f original lang' /\
         original_fieldname g = Some f /\
         kind g = kind original /\ name g = name original /\
         default g = default original /\ options g = options original) /\
    attrs' !! f = Some (AProperty f) /\
    (forall env' self,
       (attrs' !! f ≫= fun a => read_property env' a self) =
       Some (default_value env' f self)) /\
    dom (stored_fields attrs') =
      dom (stored_fields attrs) ∖ {[f]} ∪
      list_to_set (get_real_fieldname_in_each_language env f) /\
    (forall k, k <> f -> k <> "Meta" ->
       k ∉ get_real_fieldname_in_each_language env f ->
       attrs' !! k = attrs !! k) /\
    (NoDup (map fst (get_languages env)) ->
       length (get_real_fieldname_in_each_language env f) =
         length (get_languages env) /\
       NoDup (get_real_fieldname_in_each_language env f) /\
       forall lang, lang ∈ get_languages env ->
         attrs' !! get_real_fieldname env f (Some (fst lang)) =
         Some (AField (lang_attr env [f] f original lang))).
Proof.
  intros HM Ht Hm Hf.
  assert (HfM : f <> "Meta") by (intros ->; congruence).
  set (a1 := <["Meta" := AMeta (delete "translate" m)]> attrs).
  assert (H1 : get_translatable "translate" attrs = (inr ([f], true), a1)).
  { unfold get_translatable. rewrite HM, Ht. reflexivity. }
  assert (H2 : get_translatable "translate_mandatory" a1 = (inr ([], false), a1)).
  { unfold get_translatable, a1. rewrite lookup_insert_eq.
    rewrite lookup_delete_ne by discriminate. rewrite Hm. reflexivity. }
  assert (Hf1 : a1 !! f = Some (AField original)).
  { unfold a1. rewrite lookup_insert_ne by congruence. exact Hf. }
  assert (Hdom : dom (stored_fields a1) = dom (stored_fields attrs)).
  { apply set_eq. intros k. rewrite !elem_of_dom. unfold stored_fields, a1.
    rewrite !lookup_omap. destruct (decide (k = "Meta")) as [->|Hk].
    - rewrite lookup_insert_eq, HM. reflexivity.
    - rewrite lookup_insert_ne by congruence. reflexivity. }
  exists (expanded env [f] f original a1).
  split.
  { rewrite (rewrite_attrs_unfold _ _ _ _ _ _ _ _ _ H1 H2). simpl.
    erewrite bind_inr; [reflexivity|].
    erewrite bind_inr by (apply expand_field_ok; exact Hf1). reflexivity. }
  split.
  { intros lang Hl.
    destruct (lookup_expanded_derived_elem env f original a1 lang Hl)
      as (lang' & Hl' & Hc & Hlook).
    exists (lang_attr env [f] f original lang'), lang'.
    destruct (lang_attr_copy env [f] f original lang') as (? & ? & ? & ? & ?).
    repeat (split; [assumption || reflexivity|]). assumption. }
  split. { apply lookup_expanded_field. }
  split. { intros env' self. rewrite lookup_expanded_field. reflexivity. }
  split. { rewrite <- Hdom. apply stored_fields_expanded. }
  split.
  { intros k Hk HkM Hd. rewrite lookup_expanded_other by assumption.
    unfold a1. apply lookup_insert_ne. congruence. }
  intros Hnd. split; [apply length_map|].
  split; [apply derived_names_NoDup, Hnd|].
  intros lang Hl. apply lookup_expanded_derived; assumption.
Qed.

Lemma single_field_expansion_title :
  exists attrs' : gmap string attr,
    rewrite_attrs env_en_US "Article" attrs_translate_title =
      (inr (["title"], [], true), attrs') /\
    get_real_fieldname_in_each_language env_en_US "title" = ["title_en"; "title_fr"] /\
    attrs' !! "title_fr" =
      Some (AField (lang_attr env_en_US ["title"] "title" title_field ("fr", "French"))) /\
    attrs' !! "title" = Some (AProperty "title").
Proof.
  destruct (single_field_expansion env_en_US "Article" attrs_translate_title
              (list_to_map [("translate", MTuple ["title"])]) "title" title_field)
    as (attrs' & Hr & _ & Hp & _ & _ & _ & Hn).
  - reflexivity.
  - reflexivity.
  - reflexivity.
  - reflexivity.
  - exists attrs'. split; [exact Hr|]. split; [reflexivity|]. split; [|exact Hp].
    destruct Hn as (_ & _ & Hl).
    + simpl. apply NoDup_cons_2; [|apply NoDup_singleton].
      intros H. apply list_elem_of_singleton in H. discriminate H.
    + apply (Hl ("fr", "French")). simpl.
      apply list_elem_of_further, list_elem_of_here.
Defined.

(** A field listed in [translate_mandatory] only: the field generated for
    "fr", which is not the mandatory language, stays non-null and non-blank,
    where the rule of [translate] would have made it nullable. *)
Lemma mandatory_title_fr_not_relaxed :
  snd (rewrite_attrs env_en_US "Article" attrs_mandatory_title) !! "title_fr" =
    Some (AField (lang_attr env_en_US [] "title" title_field ("fr", "French"))) /\
  "fr" <> mandatory_language env_en_US /\
  null (lang_attr env_en_US [] "title" title_field ("fr", "French")) = false /\
  ~ (null (lang_attr env_en_US [] "title" title_field ("fr", "French")) =
     (if negb (null title_field) && is_NOT_PROVIDED (default title_field)
      then true else null title_field)).
Proof.
  split; [vm_compute; reflexivity|]. split; [simpl; discriminate|].
  split; [reflexivity|]. vm_compute. discriminate.
Qed.

(** ** The registry of translatable fields *)

Example TitledBase_constructed :
  TransMeta_new env_en_US plain_ModelBase_new "TitledBase" [] attrs_abstract_title =
  inr TitledBase.
Proof. vm_compute. reflexivity. Qed.

(** C9 (as the code has it). The registry of a constructed model class is
    the mandatory tuple followed by the fields tuple when the model
    declares either tuple, and otherwise the registries of its direct
    abstract bases concatenated in the order of the bases, with repeated
    names kept. *)
Theorem translatable_fields_registry env MB name bases (attrs : gmap string attr)
    new_class o :
  TransMeta_new env MB name bases attrs = inr new_class ->
  cls_meta new_class = Some o ->
  exists fields t1 a1 mandatory t2 a2,
    get_translatable "translate" attrs = (inr (fields, t1), a1) /\
    get_translatable "translate_mandatory" a1 = (inr (mandatory, t2), a2) /\
    translatable_fields o =
      Some (if t1 || t2 then (mandatory ++ fields)%list
            else inherited_translatable_fields bases).
Proof.
  intros Hnew Hmeta.
  assert (H1 : exists fields t1 a1,
            get_translatable "translate" attrs = (inr (fields, t1), a1)).
  { destruct (get_translatable_cases "translate" attrs)
      as [(e & s' & H)|[(items & s' & H)|H]]; eauto.
    unfold TransMeta_new, rewrite_attrs in Hnew.
    rewrite (bind_inl _ _ _ _ _ H) in Hnew. discriminate Hnew. }
  destruct H1 as (fields & t1 & a1 & H1).
  assert (H2 : exists mandatory t2 a2,
            get_translatable "translate_mandatory" a1 = (inr (mandatory, t2), a2)).
  { destruct (get_translatable_cases "translate_mandatory" a1)
      as [(e & s' & H)|[(items & s' & H)|H]]; eauto.
    unfold TransMeta_new, rewrite_attrs in Hnew.
    rewrite (bind_inr _ _ _ _ _ H1), (bind_inl _ _ _ _ _ H) in Hnew.
    discriminate Hnew. }
  destruct H2 as (mandatory & t2 & a2 & H2).
  exists fields, t1, a1, mandatory, t2, a2. split; [exact H1|]. split; [exact H2|].
  unfold TransMeta_new in Hnew.
  rewrite (rewrite_attrs_unfold _ _ _ _ _ _ _ _ _ H1 H2) in Hnew.
  destruct (t1 || t2).
  - unfold mbind, M_bind in Hnew.
    destruct (for_each (fields ++ mandatory) (expand_field env name fields) a2)
      as [[e|[]] a3]; [discriminate Hnew|].
    unfold mret, M_ret in Hnew.
    destruct (MB name bases a3) as [e|c]; [discriminate Hnew|].
    destruct (cls_meta c) as [o'|] eqn:Ec; injection Hnew as <-.
    + simpl in Hmeta. injection Hmeta as <-. reflexivity.
    + congruence.
  - destruct (MB name bases a2) as [e|c]; [discriminate Hnew|].
    destruct (cls_meta c) as [o'|]; [|discriminate Hnew].
    injection Hnew as <-. simpl in Hmeta. injection Hmeta as <-. reflexivity.
Qed.

(** A concrete subclass that declares neither tuple under the abstract base
    with [translate = ('title',)] exposes [('title',)]. *)
Lemma translatable_fields_inherited :
  TransMeta_new env_en_US plain_ModelBase_new "Article" [TitledBase] attrs_plain =
    inr Article /\
  registry_of (inr Article) = Some (inherited_translatable_fields [TitledBase]) /\
  inherited_translatable_fields [TitledBase] = ["title"].
Proof.
  assert (Hnew : TransMeta_new env_en_US plain_ModelBase_new "Article"
                   [TitledBase] attrs_plain = inr Article)
    by (vm_compute; reflexivity).
  split; [exact Hnew|]. split; [|reflexivity].
  destruct (translatable_fields_registry env_en_US plain_ModelBase_new "Article"
              [TitledBase] attrs_plain Article
              {| meta_abstract := false; translatable_fields := Some ["title"] |}
              Hnew eq_refl)
    as (fields & t1 & a1 & mandatory & t2 & a2 & H1 & H2 & Ho).
  vm_compute in H1. injection H1 as <- <- <-.
  vm_compute in H2. injection H2 as <- <- <-.
  exact Ho.
Defined.

(** Two abstract bases that both register [title]: the name is inherited
    twice. *)
Lemma inherited_registry_keeps_duplicates :
  registry_of (TransMeta_new env_en_US plain_ModelBase_new "Article"
                 [TitledBase; HeadedBase] attrs_plain) =
    Some ["title"; "title"] /\
  spec_inherited_registry [TitledBase; HeadedBase] = ["title"] /\
  ~ (registry_of (TransMeta_new env_en_US plain_ModelBase_new "Article"
                    [TitledBase; HeadedBase] attrs_plain) =
     Some (spec_inherited_registry [TitledBase; HeadedBase])).
Proof.
  split; [vm_compute; reflexivity|]. split; [vm_compute; reflexivity|].
  vm_compute. discriminate.
Qed.

(** ** More on the field-name helpers *)

Lemma has_char_app sep a b : has_char sep (a +:+ String sep b) = true.
Proof.
  induction a as [|d a IH].
  - change (has_char sep (String sep b) = true). simpl.
    rewrite Ascii.eqb_refl. reflexivity.
  - change (has_char sep (String d (a +:+ String sep b)) = true).
    simpl. rewrite IH. apply orb_true_r.
Qed.

Lemma length_append a b :
  String.length (a +:+ b) = String.length a + String.length b.
Proof.
  induction a as [|x a IH]; [reflexivity|].
  change (S (String.length (a +:+ b)) = S (String.length a + String.length b)).
  rewrite IH. reflexivity.
Qed.

Lemma append_inv_tail a b c : a +:+ c = b +:+ c -> a = b.
Proof.
  revert b. induction a as [|x a IH]; intros [|y b] H.
  - reflexivity.
  - change (c = String y (b +:+ c)) in H.
    apply (f_equal String.length) in H. simpl in H.
    rewrite length_append in H. lia.
  - change (String x (a +:+ c) = c) in H.
    apply (f_equal String.length) in H. simpl in H.
    rewrite length_append in H. lia.
  - change (String x (a +:+ c) = String y (b +:+ c)) in H.
    injection H as -> H. rewrite (IH b H). reflexivity.
Qed.

Lemma derived_name_inj env f1 f2 c1 c2 :
  has_char "_" c1 = false -> has_char "_" c2 = false ->
  get_real_fieldname env f1 (Some c1) = get_real_fieldname env f2 (Some c2) ->
  f1 = f2 /\ c1 = c2.
Proof.
  intros H1 H2 E. unfold get_real_fieldname in E.
  assert (Hc : c1 = c2).
  { rewrite <- (last_item_split_app "_" f1 c1 H1).
    rewrite <- (last_item_split_app "_" f2 c2 H2).
    change (last_item (split "_" (f1 +:+ "_" +:+ c1)) =
            last_item (split "_" (f2 +:+ "_" +:+ c2))).
    rewrite E. reflexivity. }
  subst c2. split; [|reflexivity].
  apply (append_inv_tail f1 f2 ("_" +:+ c1)). exact E.
Qed.

(** X1. Derived names determine the original name and the language: when
    neither code holds an underscore, two derived names are equal only for
    the same field name and the same code. *)
Theorem get_real_fieldname_inj_pair env f1 f2 c1 c2 :
  has_char "_" c1 = false -> has_char "_" c2 = false ->
  get_real_fieldname env f1 (Some c1) = get_real_fieldname env f2 (Some c2) ->
  f1 = f2 /\ c1 = c2.
Proof. apply derived_name_inj. Qed.

Lemma get_real_fieldname_inj_pair_en_fr :
  "title" = "title" /\ "fr" = "fr".
Proof.
  apply (get_real_fieldname_inj_pair env_en_US "title" "title" "fr" "fr");
    reflexivity.
Defined.

(** X2. Over a catalog whose codes hold no underscore, reading the language
    back from each name of [get_real_fieldname_in_each_language] gives the
    codes of the catalog, in the order of the catalog. *)
Theorem get_field_language_in_each_language env field :
  (forall lang, lang ∈ get_languages env -> has_char "_" (fst lang) = false) ->
  map get_field_language (get_real_fieldname_in_each_language env field) =
  map fst (get_languages env).
Proof.
  unfold get_real_fieldname_in_each_language. intros H.
  induction (get_languages env) as [|lang l IH]; [reflexivity|].
  simpl. f_equal.
  - unfold get_field_language, get_real_fieldname.
    apply (last_item_split_app "_" field (fst lang)).
    apply H, list_elem_of_here.
  - apply IH. intros lang' Hl. apply H, list_elem_of_further, Hl.
Qed.

Lemma get_field_language_in_each_language_en_fr :
  map get_field_language (get_real_fieldname_in_each_language env_en_US "title") =
  ["en"; "fr"].
Proof.
  apply (get_field_language_in_each_language env_en_US "title").
  intros lang Hl. simpl in Hl.
  apply elem_of_cons in Hl as [->|Hl]; [reflexivity|].
  apply list_elem_of_singleton in Hl as ->. reflexivity.
Defined.

(** ** More on the fallback resolver *)

(** X5. Writing a truthy value under the name the helper gives for the
    current language and then reading the accessor returns that value, when
    the primary subtag of the current language is its first two characters
    and, for a regional language, the attribute of the full code is not
    truthy. *)
Theorem default_value_after_set env field (self : gmap string pyval) v :
  String.substring 0 2 (get_language env) =
    first_item (split "-" (get_language env)) ->
  (get_real_fieldname env field (Some (get_language env)) <>
     get_real_fieldname env field None ->
   truthy (getattr_or_None self
             (get_real_fieldname env field (Some (get_language env)))) = false) ->
  truthy v = true ->
  default_value env field (<[get_real_fieldname env field None := v]> self) = inr v.
Proof.
  intros Hsub Hfull Hv. rewrite default_value_chain.
  unfold fallback_chain. cbn [map first_truthy].
  assert (H2 : get_real_fieldname env field
                 (Some (String.substring 0 2 (get_language env))) =
               get_real_fieldname env field None).
  { unfold get_real_fieldname. rewrite Hsub. reflexivity. }
  rewrite H2.
  assert (Hset : getattr_or_None
                   (<[get_real_fieldname env field None := v]> self)
                   (get_real_fieldname env field None) = v).
  { unfold getattr_or_None. rewrite lookup_insert_eq. reflexivity. }
  destruct (decide (get_real_fieldname env field (Some (get_language env)) =
                    get_real_fieldname env field None)) as [E|E].
  - rewrite E, Hset, Hv. reflexivity.
  - assert (H1 : getattr_or_None
                   (<[get_real_fieldname env field None := v]> self)
                   (get_real_fieldname env field (Some (get_language env))) =
                 getattr_or_None self
                   (get_real_fieldname env field (Some (get_language env)))).
    { unfold getattr_or_None. rewrite lookup_insert_ne by congruence. reflexivity. }
    rewrite H1, (Hfull E), Hset, Hv. reflexivity.
Qed.

Lemma default_value_after_set_en_US :
  default_value env_en_US "field" (<["field_en" := VStr "Hello"]> instance_bonjour) =
  inr (VStr "Hello").
Proof.
  apply (default_value_after_set env_en_US "field" instance_bonjour (VStr "Hello")).
  - reflexivity.
  - intros _. vm_compute. reflexivity.
  - reflexivity.
Defined.

(** ** More on the two tuples of [Meta] *)

Lemma get_translatable_Meta meta_field (s : gmap string attr) m r s' :
  s !! "Meta" = Some (AMeta m) ->
  get_translatable meta_field s = (r, s') ->
  s' !! "Meta" = Some (AMeta (delete meta_field m)).
Proof.
  intros Hs. unfold get_translatable. rewrite Hs.
  destruct (m !! meta_field) as [v|] eqn:Hm.
  - destruct v; intros H; injection H as _ <-; apply lookup_insert_eq.
  - intros H. injection H as _ <-. rewrite delete_id by exact Hm. exact Hs.
Qed.

Lemma get_translatable_other meta_field (s : gmap string attr) r s' k :
  k <> "Meta" ->
  get_translatable meta_field s = (r, s') ->
  s' !! k = s !! k.
Proof.
  intros Hk. unfold get_translatable.
  destruct (s !! "Meta") as [[f|m|p|v]|];
    try (intros H; injection H as _ <-; reflexivity).
  destruct (m !! meta_field) as [[items|items|v]|];
    intros H; injection H as _ <-;
    try reflexivity; apply lookup_insert_ne; congruence.
Qed.

Lemma get_translatable_declared meta_field (s : gmap string attr) items s' :
  get_translatable meta_field s = (inr (items, true), s') ->
  exists m, s !! "Meta" = Some (AMeta m).
Proof.
  unfold get_translatable.
  destruct (s !! "Meta") as [[f|m|p|v]|]; try discriminate.
  intros _. exists m. reflexivity.
Qed.

Lemma get_translatable_inheriting_own inherited meta_field (s : gmap string attr) :
  inherited !! meta_field = None ->
  get_translatable_inheriting inherited meta_field s = get_translatable meta_field s.
Proof.
  intros H. unfold get_translatable_inheriting, get_translatable.
  rewrite H. reflexivity.
Qed.

(** X6. [get_translatable] consumes the attribute that [Meta] declares:
    whatever the outcome of a call, [Meta] does not declare the attribute
    afterwards and no other name of the class body is touched. Asking again
    reports it as not declared and changes nothing when no base of [Meta]
    carries it, and raises [AttributeError], from [delattr], when one
    does. *)
Theorem get_translatable_inheriting_consumes inherited meta_field
    (s : gmap string attr) r s' :
  get_translatable_inheriting inherited meta_field s = (r, s') ->
  (forall k, k <> "Meta" -> s' !! k = s !! k) /\
  (forall m', s' !! "Meta" = Some (AMeta m') -> m' !! meta_field = None) /\
  (inherited !! meta_field = None ->
   get_translatable_inheriting inherited meta_field s' = (inr ([], false), s')) /\
  (forall m, s !! "Meta" = Some (AMeta m) -> is_Some (inherited !! meta_field) ->
   get_translatable_inheriting inherited meta_field s' =
   (inl (AttributeError meta_field), s')).
Proof.
  intros H. unfold get_translatable_inheriting in H.
  destruct (s !! "Meta") as [[f|m|p|v]|] eqn:Hs.
  2:{ assert (Hs' : s' !! "Meta" = Some (AMeta (delete meta_field m)) /\
                    forall k, k <> "Meta" -> s' !! k = s !! k).
      { destruct (m !! meta_field) as [[items|items|v]|] eqn:Hm.
        1-3: injection H as _ <-; split;
          [apply lookup_insert_eq|intros k Hk; apply lookup_insert_ne; congruence].
        rewrite (delete_id _ _ Hm).
        destruct (inherited !! meta_field); injection H as _ <-; auto. }
      destruct Hs' as [HM Hother]. split; [exact Hother|]. split; [|split].
      - intros m' Hm'. rewrite HM in Hm'. injection Hm' as <-.
        apply lookup_delete_eq.
      - intros Hinh. unfold get_translatable_inheriting.
        rewrite HM, lookup_delete_eq, Hinh. reflexivity.
      - intros m0 _ [w Hw]. unfold get_translatable_inheriting.
        rewrite HM, lookup_delete_eq, Hw. reflexivity. }
  all: injection H as _ <-; split; [reflexivity|]; split; [|split];
    [ intros m' Hm'; congruence
    | intros _; unfold get_translatable_inheriting; rewrite Hs; reflexivity
    | intros m0 Hm0; congruence ].
Qed.

Lemma get_translatable_inheriting_consumes_title :
  get_translatable_inheriting inherited_translate "translate"
    (snd (get_translatable_inheriting inherited_translate "translate"
            attrs_translate_title)) =
  (inl (AttributeError "translate"),
   snd (get_translatable_inheriting inherited_translate "translate"
          attrs_translate_title)) /\
  snd (get_translatable_inheriting inherited_translate "translate"
         attrs_translate_title) !! "title" = Some (AField title_field).
Proof.
  destruct (get_translatable_inheriting_consumes inherited_translate "translate"
              attrs_translate_title (inr (["title"], true))
              (snd (get_translatable_inheriting inherited_translate "translate"
                      attrs_translate_title)))
    as (Hother & _ & _ & Hagain).
  - vm_compute. reflexivity.
  - split.
    + apply (Hagain (list_to_map [("translate", MTuple ["title"])])).
      * reflexivity.
      * eexists. reflexivity.
    + rewrite Hother by discriminate. reflexivity.
Defined.

(** ** More on the expansion loop *)

Lemma expand_field_cases env name fields field (s : gmap string attr) :
  (exists original, s !! field = Some (AField original) /\
     expand_field env name fields field s =
     (inr tt, expanded env fields field original s)) \/
  ((forall f, s !! field <> Some (AField f)) /\
   expand_field env name fields field s =
   (inl (ImproperlyConfigured (no_field_message field name)), s)).
Proof.
  destruct (s !! field) as [[f|m|p|v]|] eqn:E.
  1:{ left. exists f. split; [reflexivity|]. apply expand_field_ok, E. }
  all: right; split; [intros f; discriminate|];
    apply expand_field_raise; intros f; rewrite E; discriminate.
Qed.

Lemma for_each_app_ok {A : Type} (body : A -> M unit) l1 l2 s s1 :
  for_each l1 body s = (inr tt, s1) ->
  for_each (l1 ++ l2) body s = for_each l2 body s1.
Proof.
  revert s. induction l1 as [|x l1 IH]; simpl; intros s H.
  - injection H as <-. reflexivity.
  - unfold mbind, M_bind in *. destruct (body x s) as [[e|[]] s2].
    + discriminate H.
    + apply IH, H.
Qed.

Lemma for_each_expand_raises env name fields names (s : gmap string attr) e s' :
  for_each names (expand_field env name fields) s = (inl e, s') ->
  exists field, field ∈ names /\
    e = ImproperlyConfigured (no_field_message field name).
Proof.
  revert s. induction names as [|g names IH]; simpl; intros s H.
  - discriminate H.
  - unfold mbind, M_bind in H.
    destruct (expand_field_cases env name fields g s)
      as [(o & _ & Hok)|(_ & Hfail)].
    + rewrite Hok in H. destruct (IH _ H) as (field & Hin & He).
      exists field. split; [apply list_elem_of_further, Hin|exact He].
    + rewrite Hfail in H. injection H as <- _.
      exists g. split; [apply list_elem_of_here|reflexivity].
Qed.

Lemma get_translatable_raises meta_field (s : gmap string attr) e s' :
  get_translatable meta_field s = (inl e, s') ->
  e = ImproperlyConfigured tuple_message.
Proof.
  unfold get_translatable.
  destruct (s !! "Meta") as [[f|m|p|v]|]; try discriminate.
  destruct (m !! meta_field) as [[items|items|v]|]; try discriminate;
    intros H; injection H as <- _; reflexivity.
Qed.

Lemma get_translatable_inheriting_raises inherited meta_field
    (s : gmap string attr) e s' :
  get_translatable_inheriting inherited meta_field s = (inl e, s') ->
  e = ImproperlyConfigured tuple_message \/
  (is_Some (inherited !! meta_field) /\ e = AttributeError meta_field).
Proof.
  unfold get_translatable_inheriting.
  destruct (s !! "Meta") as [[f|m|p|v]|]; try discriminate.
  destruct (m !! meta_field) as [[items|items|v]|]; try discriminate.
  1-2: intros H; injection H as <- _; left; reflexivity.
  destruct (inherited !! meta_field) as [w|]; [|discriminate].
  intros H. injection H as <- _. right. split; [eexists|]; reflexivity.
Qed.

(** X7. Rewriting the class body, with tuples of names, fails in three
    ways only: the configuration error about a tuple, the configuration
    error about a missing field for a name listed in [translate] or
    [translate_mandatory], and the [AttributeError] of [delattr] for a tuple
    that only a base of [Meta] carries. No [KeyError] and no other
    [AttributeError] escapes. *)
Theorem rewrite_attrs_inheriting_raises inherited env name
    (attrs : gmap string attr) e attrs' :
  rewrite_attrs_inheriting inherited env name attrs = (inl e, attrs') ->
  e = ImproperlyConfigured tuple_message \/
  (exists meta_field,
     (meta_field = "translate" \/ meta_field = "translate_mandatory") /\
     is_Some (inherited !! meta_field) /\ e = AttributeError meta_field) \/
  exists fields t1 a1 mandatory t2 a2 field,
    get_translatable_inheriting inherited "translate" attrs =
      (inr (fields, t1), a1) /\
    get_translatable_inheriting inherited "translate_mandatory" a1 =
      (inr (mandatory, t2), a2) /\
    field ∈ (fields ++ mandatory)%list /\
    e = ImproperlyConfigured (no_field_message field name).
Proof.
  intros H. unfold rewrite_attrs_inheriting in H.
  destruct (get_translatable_inheriting inherited "translate" attrs)
    as [[e1|[fields t1]] a1] eqn:H1.
  { rewrite (bind_inl _ _ _ _ _ H1) in H. injection H as <- _.
    destruct (get_translatable_inheriting_raises _ _ _ _ _ H1) as [->|[Hi ->]];
      [left; reflexivity|].
    right. left. exists "translate". auto. }
  destruct (get_translatable_inheriting inherited "translate_mandatory" a1)
    as [[e2|[mandatory t2]] a2] eqn:H2.
  { rewrite (bind_inr _ _ _ _ _ H1), (bind_inl _ _ _ _ _ H2) in H.
    injection H as <- _.
    destruct (get_translatable_inheriting_raises _ _ _ _ _ H2) as [->|[Hi ->]];
      [left; reflexivity|].
    right. left. exists "translate_mandatory". auto. }
  right. right. exists fields, t1, a1, mandatory, t2, a2.
  rewrite (bind_inr _ _ _ _ _ H1), (bind_inr _ _ _ _ _ H2) in H.
  destruct (t1 || t2); [|discriminate H].
  simpl in H. unfold mbind, M_bind in H.
  destruct (for_each (fields ++ mandatory) (expand_field env name fields) a2)
    as [[e3|[]] a3] eqn:H3; [|discriminate H].
  injection H as <- _.
  destruct (for_each_expand_raises _ _ _ _ _ _ _ H3) as (field & Hin & He).
  exists field. auto.
Qed.

Lemma rewrite_attrs_inheriting_raises_inherited :
  fst (rewrite_attrs_inheriting inherited_translate env_en_US "Article"
         attrs_empty_Meta) = inl (AttributeError "translate") /\
  (AttributeError "translate" = ImproperlyConfigured tuple_message \/
   (exists meta_field,
      (meta_field = "translate" \/ meta_field = "translate_mandatory") /\
      is_Some (inherited_translate !! meta_field) /\
      AttributeError "translate" = AttributeError meta_field) \/
   exists fields t1 a1 mandatory t2 (a2 : gmap string attr) field,
     get_translatable_inheriting inherited_translate "translate"
       attrs_empty_Meta = (inr (fields, t1), a1) /\
     get_translatable_inheriting inherited_translate "translate_mandatory" a1 =
       (inr (mandatory, t2), a2) /\
     field ∈ (fields ++ mandatory)%list /\
     AttributeError "translate" =
     ImproperlyConfigured (no_field_message field "Article")).
Proof.
  split; [vm_compute; reflexivity|].
  eapply (rewrite_attrs_inheriting_raises inherited_translate env_en_US "Article"
            attrs_empty_Meta).
  vm_compute. reflexivity.
Defined.

Lemma rewrite_attrs_inheriting_own inherited env name (attrs : gmap string attr) :
  inherited !! "translate" = None ->
  inherited !! "translate_mandatory" = None ->
  rewrite_attrs_inheriting inherited env name attrs = rewrite_attrs env name attrs.
Proof.
  intros Ht Hm. unfold rewrite_attrs_inheriting, rewrite_attrs, mbind, M_bind.
  rewrite (get_translatable_inheriting_own _ _ _ Ht).
  destruct (get_translatable "translate" attrs) as [[e1|[fields t1]] a1];
    [reflexivity|].
  rewrite (get_translatable_inheriting_own _ _ _ Hm). reflexivity.
Qed.

Section ExpandedLookup.

Variable env : Env.
Variables (fields : list string) (f : string) (original : Field).
Variable s : gmap string attr.

Lemma lookup_expanded_self :
  expanded env fields f original s !! f = Some (AProperty f).
Proof. apply lookup_insert_eq. Qed.

Lemma lookup_expanded_outside k :
  k <> f -> k ∉ get_real_fieldname_in_each_language env f ->
  expanded env fields f original s !! k = s !! k.
Proof.
  intros Hk Hd. unfold expanded.
  rewrite lookup_insert_ne by congruence.
  rewrite lookup_delete_ne by congruence.
  apply lookup_set_items_notin. exact Hd.
Qed.

Lemma lookup_expanded_lang lang :
  lang ∈ get_languages env ->
  exists lang', lang' ∈ get_languages env /\ fst lang' = fst lang /\
    expanded env fields f original s !! get_real_fieldname env f (Some (fst lang)) =
    Some (AField (lang_attr env fields f original lang')).
Proof.
  intros Hl. unfold expanded.
  rewrite lookup_insert_ne
    by (intros E; symmetry in E; exact (get_real_fieldname_ne_field _ _ _ E)).
  rewrite lookup_delete_ne
    by (intros E; symmetry in E; exact (get_real_fieldname_ne_field _ _ _ E)).
  destruct (lookup_set_items_elem
              (fun lang : language => get_real_fieldname env f (Some (fst lang)))
              (fun lang => AField (lang_attr env fields f original lang))
              (get_languages env) s
              (get_real_fieldname env f (Some (fst lang))))
    as (lang' & Hl' & Hk & Hlook).
  - apply list_elem_of_fmap. exists lang. split; [reflexivity|exact Hl].
  - exists lang'. split; [exact Hl'|]. split; [|exact Hlook].
    apply (get_real_fieldname_inj _ _ _ _ Hk).
Qed.

End ExpandedLookup.

Lemma derived_name_has_underscore env field names k :
  k ∈ derived_names env names \/ k ∈ get_real_fieldname_in_each_language env field ->
  has_char "_" k = true.
Proof.
  assert (H : forall g, k ∈ get_real_fieldname_in_each_language env g ->
                        has_char "_" k = true).
  { intros g Hk. unfold get_real_fieldname_in_each_language in Hk.
    apply list_elem_of_fmap in Hk as (lang & -> & _).
    apply has_char_app. }
  intros [Hk|Hk]; [|exact (H _ Hk)].
  unfold derived_names in Hk. apply list_elem_of_In, in_flat_map in Hk.
  destruct Hk as (g & _ & Hk). apply (H g), list_elem_of_In, Hk.
Qed.

Lemma for_each_expand_keeps_Meta env name fields names (s : gmap string attr) m s' :
  s !! "Meta" = Some (AMeta m) ->
  for_each names (expand_field env name fields) s = (inr tt, s') ->
  s' !! "Meta" = Some (AMeta m).
Proof.
  revert s. induction names as [|g names IH]; simpl; intros s Hs H.
  - injection H as <-. exact Hs.
  - unfold mbind, M_bind in H.
    destruct (expand_field_cases env name fields g s)
      as [(o & Hg & Hok)|(_ & Hfail)]; [|rewrite Hfail in H; discriminate H].
    rewrite Hok in H. refine (IH _ _ H).
    rewrite lookup_expanded_outside; [exact Hs|congruence|].
    intros Hd.
    pose proof (derived_name_has_underscore env g [] "Meta" (or_intror Hd)) as Hu.
    vm_compute in Hu. discriminate Hu.
Qed.

(** X8. When rewriting succeeds, the [Meta] handed on to the host's class
    constructor is the declared one without [translate] and without
    [translate_mandatory], its other attributes untouched. *)
Theorem rewrite_attrs_strips_Meta env name (attrs : gmap string attr) m r attrs' :
  attrs !! "Meta" = Some (AMeta m) ->
  rewrite_attrs env name attrs = (inr r, attrs') ->
  attrs' !! "Meta" =
  Some (AMeta (delete "translate_mandatory" (delete "translate" m))).
Proof.
  intros HM H.
  destruct (get_translatable "translate" attrs) as [[e1|[fields t1]] a1] eqn:H1.
  { unfold rewrite_attrs in H. rewrite (bind_inl _ _ _ _ _ H1) in H. discriminate H. }
  destruct (get_translatable "translate_mandatory" a1)
    as [[e2|[mandatory t2]] a2] eqn:H2.
  { unfold rewrite_attrs in H.
    rewrite (bind_inr _ _ _ _ _ H1), (bind_inl _ _ _ _ _ H2) in H. discriminate H. }
  pose proof (get_translatable_Meta _ _ _ _ _ HM H1) as HM1.
  pose proof (get_translatable_Meta _ _ _ _ _ HM1 H2) as HM2.
  rewrite (rewrite_attrs_unfold _ _ _ _ _ _ _ _ _ H1 H2) in H.
  destruct (t1 || t2).
  - unfold mbind, M_bind in H.
    destruct (for_each (fields ++ mandatory) (expand_field env name fields) a2)
      as [[e3|[]] a3] eqn:H3; [discriminate H|].
    unfold mret, M_ret in H. injection H as _ <-.
    apply (for_each_expand_keeps_Meta _ _ _ _ _ _ _ HM2 H3).
  - injection H as _ <-. exact HM2.
Qed.

Lemma rewrite_attrs_strips_Meta_abstract :
  snd (rewrite_attrs env_en_US "TitledBase" attrs_abstract_title) !! "Meta" =
  Some (AMeta (<["abstract" := MOther (VBool true)]> ∅)).
Proof.
  rewrite (rewrite_attrs_strips_Meta env_en_US "TitledBase" attrs_abstract_title
             (list_to_map [("abstract", MOther (VBool true));
                           ("translate", MTuple ["title"])])
             (["title"], [], true)
             (snd (rewrite_attrs env_en_US "TitledBase" attrs_abstract_title))).
  - vm_compute. reflexivity.
  - reflexivity.
  - vm_compute. reflexivity.
Defined.

Lemma TransMeta_new_raises env MB name bases (attrs : gmap string attr) e attrs' :
  rewrite_attrs env name attrs = (inl e, attrs') ->
  TransMeta_new env MB name bases attrs = inl e.
Proof. intros H. unfold TransMeta_new. rewrite H. reflexivity. Qed.

Lemma for_each_app_raise_prefix {A : Type} (body : A -> M unit) l1 l2 s e s1 :
  for_each l1 body s = (inl e, s1) ->
  for_each (l1 ++ l2) body s = (inl e, s1).
Proof.
  revert s. induction l1 as [|x l1 IH]; simpl; intros s H; [discriminate H|].
  unfold mbind, M_bind in *. destruct (body x s) as [[e'|[]] s2].
  - exact H.
  - apply IH, H.
Qed.

(** X9. A model whose body has no [Meta], or a [Meta] with neither tuple,
    is handed to the host's class constructor as declared, and the class
    gets the registry inherited from its bases. *)
Theorem undeclared_model_untouched env MB name bases (attrs : gmap string attr) :
  (forall m, attrs !! "Meta" = Some (AMeta m) ->
             m !! "translate" = None /\ m !! "translate_mandatory" = None) ->
  rewrite_attrs env name attrs = (inr ([], [], false), attrs) /\
  TransMeta_new env MB name bases attrs =
  match MB name bases attrs with
  | inl e => inl e
  | inr new_class =>
      match cls_meta new_class with
      | None => inl (AttributeError "_meta")
      | Some o =>
          inr {| cls_name := cls_name new_class;
                 cls_dict := cls_dict new_class;
                 cls_meta := Some (set_translatable_fields
                                     (inherited_translatable_fields bases) o) |}
      end
  end.
Proof.
  intros HM.
  assert (Hget : forall meta_field,
            meta_field = "translate" \/ meta_field = "translate_mandatory" ->
            get_translatable meta_field attrs = (inr ([], false), attrs)).
  { intros meta_field Hf. unfold get_translatable.
    destruct (attrs !! "Meta") as [[f|m|p|v]|]; try reflexivity.
    destruct (HM m eq_refl) as [Ht Hm].
    destruct Hf as [-> | ->]; [rewrite Ht|rewrite Hm]; reflexivity. }
  assert (Hr : rewrite_attrs env name attrs = (inr ([], [], false), attrs)).
  { rewrite (rewrite_attrs_unfold env name attrs [] false attrs [] false attrs);
      [reflexivity|apply Hget; auto..]. }
  split; [exact Hr|]. unfold TransMeta_new. rewrite Hr. reflexivity.
Qed.

Lemma undeclared_model_untouched_plain :
  rewrite_attrs env_en_US "Article" attrs_plain = (inr ([], [], false), attrs_plain).
Proof.
  apply (undeclared_model_untouched env_en_US plain_ModelBase_new "Article"
           [TitledBase] attrs_plain).
  intros m H. vm_compute in H. discriminate H.
Defined.

(** X10. A model that declares the empty tuple [translate = ()] counts as
    declaring: nothing is expanded, and its registry is the empty tuple
    whatever its bases register. *)
Theorem empty_translate_resets_registry env MB name bases (attrs : gmap string attr)
    m new_class o :
  attrs !! "Meta" = Some (AMeta m) ->
  m !! "translate" = Some (MTuple []) ->
  m !! "translate_mandatory" = None ->
  MB name bases (<["Meta" := AMeta (delete "translate" m)]> attrs) = inr new_class ->
  cls_meta new_class = Some o ->
  rewrite_attrs env name attrs =
    (inr ([], [], true), <["Meta" := AMeta (delete "translate" m)]> attrs) /\
  TransMeta_new env MB name bases attrs =
    inr {| cls_name := cls_name new_class;
           cls_dict := cls_dict new_class;
           cls_meta := Some (set_translatable_fields [] o) |}.
Proof.
  intros HM Ht Hm HMB Ho.
  set (a1 := <["Meta" := AMeta (delete "translate" m)]> attrs) in *.
  assert (H1 : get_translatable "translate" attrs = (inr ([], true), a1)).
  { unfold get_translatable. rewrite HM, Ht. reflexivity. }
  assert (H2 : get_translatable "translate_mandatory" a1 = (inr ([], false), a1)).
  { unfold get_translatable, a1. rewrite lookup_insert_eq.
    rewrite lookup_delete_ne by discriminate. rewrite Hm. reflexivity. }
  assert (Hr : rewrite_attrs env name attrs = (inr ([], [], true), a1)).
  { rewrite (rewrite_attrs_unfold _ _ _ _ _ _ _ _ _ H1 H2). reflexivity. }
  split; [exact Hr|]. unfold TransMeta_new. rewrite Hr, HMB, Ho. reflexivity.
Qed.

Lemma empty_translate_resets_registry_article :
  registry_of (TransMeta_new env_en_US plain_ModelBase_new "Article" [TitledBase]
                 attrs_translate_empty) = Some [] /\
  inherited_translatable_fields [TitledBase] = ["title"].
Proof.
  split; [|reflexivity].
  destruct (empty_translate_resets_registry env_en_US plain_ModelBase_new "Article"
              [TitledBase] attrs_translate_empty
              (list_to_map [("translate", MTuple [])])
              {| cls_name := "Article";
                 cls_dict := <["Meta" := AMeta (delete "translate"
                                 (list_to_map [("translate", MTuple [])]))]>
                               attrs_translate_empty;
                 cls_meta := Some {| meta_abstract := false;
                                     translatable_fields := None |} |}
              {| meta_abstract := false; translatable_fields := None |})
    as [_ ->].
  - reflexivity.
  - reflexivity.
  - reflexivity.
  - vm_compute. reflexivity.
  - reflexivity.
  - reflexivity.
Defined.

(** X11. A name listed twice in a row in [translate] followed by
    [translate_mandatory], as when both tuples are [(f,)], is never expanded
    twice: the first turn leaves the name bound to a property, and class
    construction raises the configuration error about a missing field, for
    that name or for a name listed before it. *)
Theorem repeated_name_is_rejected env MB name bases (attrs : gmap string attr)
    fields t1 a1 mandatory t2 a2 before f after :
  get_translatable "translate" attrs = (inr (fields, t1), a1) ->
  get_translatable "translate_mandatory" a1 = (inr (mandatory, t2), a2) ->
  t1 || t2 = true ->
  (fields ++ mandatory)%list = (before ++ f :: f :: after)%list ->
  exists g, g ∈ (before ++ [f])%list /\
    TransMeta_new env MB name bases attrs =
    inl (ImproperlyConfigured (no_field_message g name)).
Proof.
  intros H1 H2 Ht Hsplit.
  assert (Hgoal : exists g s, g ∈ (before ++ [f])%list /\
            for_each (before ++ f :: f :: after) (expand_field env name fields) a2 =
            (inl (ImproperlyConfigured (no_field_message g name)), s)).
  { destruct (for_each before (expand_field env name fields) a2)
      as [[e|[]] a3] eqn:Hb.
    - destruct (for_each_expand_raises _ _ _ _ _ _ _ Hb) as (g & Hg & ->).
      exists g, a3. split; [apply elem_of_app; left; exact Hg|].
      apply for_each_app_raise_prefix, Hb.
    - destruct (expand_field_cases env name fields f a3)
        as [(o & Hf & Hok)|(Hf & Hfail)].
      + exists f, (expanded env fields f o a3).
        split; [apply elem_of_app; right; apply list_elem_of_here|].
        change (before ++ f :: f :: after)%list
          with (before ++ [f] ++ f :: after)%list.
        rewrite app_assoc.
        eapply for_each_app_raise.
        * rewrite (for_each_app_ok _ _ _ _ _ Hb). simpl.
          unfold mbind, M_bind. rewrite Hok. reflexivity.
        * apply expand_field_raise. intros o'.
          rewrite lookup_expanded_self. discriminate.
      + exists f, a3.
        split; [apply elem_of_app; right; apply list_elem_of_here|].
        eapply for_each_app_raise; [exact Hb|exact Hfail]. }
  destruct Hgoal as (g & s & Hg & Hfor). exists g. split; [exact Hg|].
  apply (TransMeta_new_raises _ _ _ _ _ _ s).
  rewrite (rewrite_attrs_unfold _ _ _ _ _ _ _ _ _ H1 H2), Ht, Hsplit.
  apply bind_inl, Hfor.
Qed.

Lemma repeated_name_is_rejected_title :
  TransMeta_new env_en_US plain_ModelBase_new "Article" [] attrs_title_twice =
  inl (ImproperlyConfigured (no_field_message "title" "Article")).
Proof.
  destruct (repeated_name_is_rejected env_en_US plain_ModelBase_new "Article" []
              attrs_title_twice ["title"] true
              (snd (get_translatable "translate" attrs_title_twice))
              ["title"] true
              (snd (get_translatable "translate_mandatory"
                      (snd (get_translatable "translate" attrs_title_twice))))
              [] "title" [])
    as (g & Hg & H).
  - vm_compute. reflexivity.
  - vm_compute. reflexivity.
  - reflexivity.
  - reflexivity.
  - simpl in Hg. apply list_elem_of_singleton in Hg. subst g. exact H.
Defined.

(** ** Expansion of several fields *)

Lemma elem_of_each_language env f k :
  k ∈ get_real_fieldname_in_each_language env f <->
  exists lang, lang ∈ get_languages env /\ k = get_real_fieldname env f (Some (fst lang)).
Proof.
  unfold get_real_fieldname_in_each_language. rewrite list_elem_of_fmap.
  split; intros (lang & H1 & H2); exists lang; auto.
Qed.

Lemma elem_of_derived_names env names k :
  k ∈ derived_names env names <->
  exists f, f ∈ names /\ k ∈ get_real_fieldname_in_each_language env f.
Proof.
  unfold derived_names. rewrite list_elem_of_In, in_flat_map.
  split; intros (f & H1 & H2); exists f; split;
    try (apply list_elem_of_In; assumption); assumption.
Qed.

Section SeveralFields.

Variable env : Env.
Variables (name : string) (fields : list string).
Hypothesis Hcodes :
  forall lang, lang ∈ get_languages env -> has_char "_" (fst lang) = false.

Lemma each_language_disjoint f g k :
  k ∈ get_real_fieldname_in_each_language env f ->
  k ∈ get_real_fieldname_in_each_language env g ->
  f = g.
Proof.
  intros Hf Hg.
  apply elem_of_each_language in Hf as (l1 & Hl1 & ->).
  apply elem_of_each_language in Hg as (l2 & Hl2 & E).
  apply derived_name_inj in E; [tauto|auto..].
Qed.

Lemma for_each_expand_ok names (s : gmap string attr) :
  NoDup names ->
  (forall g, g ∈ names -> exists o, s !! g = Some (AField o)) ->
  (forall g, g ∈ names -> g ∉ derived_names env names) ->
  exists s' : gmap string attr,
    for_each names (expand_field env name fields) s = (inr tt, s') /\
    (forall k, k ∉ names -> k ∉ derived_names env names -> s' !! k = s !! k) /\
    (forall f, f ∈ names -> s' !! f = Some (AProperty f)) /\
    (forall f o lang, f ∈ names -> s !! f = Some (AField o) ->
       lang ∈ get_languages env ->
       exists lang', lang' ∈ get_languages env /\ fst lang' = fst lang /\
         s' !! get_real_fieldname env f (Some (fst lang)) =
         Some (AField (lang_attr env fields f o lang'))).
Proof.
  revert s. induction names as [|g rest IH]; intros s Hnd Hbound Hnot.
  - exists s. split; [reflexivity|]. split; [reflexivity|].
    split; intros f; [intros H|intros o lang H]; apply elem_of_nil in H as [].
  - apply NoDup_cons in Hnd as [Hg Hnd].
    destruct (Hbound g (list_elem_of_here _ _)) as (og & Hog).
    assert (Hder : forall k, k ∈ derived_names env (g :: rest) <->
              k ∈ get_real_fieldname_in_each_language env g \/
              k ∈ derived_names env rest).
    { intros k. unfold derived_names. simpl. apply elem_of_app. }
    set (s1 := expanded env fields g og s).
    assert (Hs1 : forall h, h ∈ rest -> s1 !! h = s !! h).
    { intros h Hh. apply lookup_expanded_outside.
      - intros ->. exact (Hg Hh).
      - intros Hd. apply (Hnot h (list_elem_of_further _ _ _ Hh)).
        apply Hder. left. exact Hd. }
    destruct (IH s1) as (s' & Hfor & Hout & Hprop & Hlang).
    { exact Hnd. }
    { intros h Hh. rewrite (Hs1 h Hh).
      apply Hbound, list_elem_of_further, Hh. }
    { intros h Hh Hd. apply (Hnot h (list_elem_of_further _ _ _ Hh)).
      apply Hder. right. exact Hd. }
    exists s'. split.
    { simpl. unfold mbind, M_bind.
      rewrite (expand_field_ok env name fields g og s Hog). exact Hfor. }
    split.
    { intros k Hk Hd. apply not_elem_of_cons in Hk as [Hkg Hk].
      rewrite Hout; [|exact Hk|intros H; apply Hd, Hder; right; exact H].
      apply lookup_expanded_outside; [exact Hkg|].
      intros H. apply Hd, Hder. left. exact H. }
    split.
    { intros f Hf. apply elem_of_cons in Hf as [->|Hf]; [|apply Hprop, Hf].
      rewrite Hout; [apply lookup_expanded_self|exact Hg|].
      intros H. apply (Hnot g (list_elem_of_here _ _)), Hder. right. exact H. }
    intros f o lang Hf Ho Hl. apply elem_of_cons in Hf as [->|Hf].
    + assert (o = og) by congruence. subst o.
      destruct (lookup_expanded_lang env fields g og s lang Hl)
        as (lang' & Hl' & Hc & Hlook).
      exists lang'. split; [exact Hl'|]. split; [exact Hc|].
      rewrite Hout; [exact Hlook| |].
      * intros H. apply (Hnot _ (list_elem_of_further _ _ _ H)), Hder. left.
        apply elem_of_each_language. exists lang. auto.
      * intros H. apply elem_of_derived_names in H as (h & Hh & Hk).
        assert (g = h); [|subst h; exact (Hg Hh)].
        apply (each_language_disjoint g h
                 (get_real_fieldname env g (Some (fst lang)))); [|exact Hk].
        apply elem_of_each_language. exists lang. auto.
    + apply Hlang; [exact Hf| |exact Hl]. rewrite (Hs1 f Hf). exact Ho.
Qed.

End SeveralFields.

Lemma rewrite_attrs_expanded env name (attrs : gmap string attr)
    fields t1 a1 mandatory t2 a2 :
  get_translatable "translate" attrs = (inr (fields, t1), a1) ->
  get_translatable "translate_mandatory" a1 = (inr (mandatory, t2), a2) ->
  t1 || t2 = true ->
  (forall lang, lang ∈ get_languages env -> has_char "_" (fst lang) = false) ->
  NoDup (fields ++ mandatory) ->
  (forall g, g ∈ (fields ++ mandatory)%list -> exists o, attrs !! g = Some (AField o)) ->
  (forall g, g ∈ (fields ++ mandatory)%list ->
             g ∉ derived_names env (fields ++ mandatory)) ->
  exists attrs' : gmap string attr,
    rewrite_attrs env name attrs = (inr (fields, mandatory, true), attrs') /\
    (forall k, k <> "Meta" -> k ∉ (fields ++ mandatory)%list ->
       k ∉ derived_names env (fields ++ mandatory) -> attrs' !! k = attrs !! k) /\
    (forall f, f ∈ (fields ++ mandatory)%list -> attrs' !! f = Some (AProperty f)) /\
    (forall f o lang, f ∈ (fields ++ mandatory)%list ->
       attrs !! f = Some (AField o) -> lang ∈ get_languages env ->
       exists lang', lang' ∈ get_languages env /\ fst lang' = fst lang /\
         attrs' !! get_real_fieldname env f (Some (fst lang)) =
         Some (AField (lang_attr env fields f o lang'))).
Proof.
  intros H1 H2 Ht Hcodes Hnd Hbound Hnot.
  assert (HMeta : forall o, attrs !! "Meta" <> Some (AField o)).
  { intros o HM. unfold get_translatable in H1. rewrite HM in H1.
    injection H1 as <- <- <-.
    unfold get_translatable in H2. rewrite HM in H2.
    injection H2 as <- <- <-. discriminate Ht. }
  assert (Ha2 : forall k, k <> "Meta" -> a2 !! k = attrs !! k).
  { intros k Hk. rewrite (get_translatable_other _ _ _ _ _ Hk H2).
    apply (get_translatable_other _ _ _ _ _ Hk H1). }
  assert (Hne : forall g o, attrs !! g = Some (AField o) -> g <> "Meta").
  { intros g o Hg ->. exact (HMeta o Hg). }
  destruct (for_each_expand_ok env name fields Hcodes (fields ++ mandatory) a2)
    as (attrs' & Hfor & Hout & Hprop & Hlang).
  { exact Hnd. }
  { intros g Hg. destruct (Hbound g Hg) as (o & Ho). exists o.
    rewrite (Ha2 g (Hne g o Ho)). exact Ho. }
  { exact Hnot. }
  exists attrs'. split.
  { rewrite (rewrite_attrs_unfold _ _ _ _ _ _ _ _ _ H1 H2), Ht.
    unfold mbind, M_bind. rewrite Hfor. reflexivity. }
  split.
  { intros k Hk Hn Hd. rewrite (Hout k Hn Hd). apply Ha2, Hk. }
  split; [exact Hprop|].
  intros f o lang Hf Ho Hl. apply Hlang; [exact Hf| |exact Hl].
  rewrite (Ha2 f (Hne f o Ho)). exact Ho.
Qed.

(** X12. For a declaration whose listed names are pairwise distinct and
    bound to fields, none of them being a derived name of a listed name, over
    a catalog whose codes hold no underscore: rewriting succeeds; every
    listed name ends up bound to its property; every derived name is bound
    to the field generated from its own original for a catalog entry with
    that code; and every name that is neither listed, derived nor [Meta] is
    bound as declared. *)
Theorem several_fields_expansion env name (attrs : gmap string attr)
    fields t1 a1 mandatory t2 a2 :
  get_translatable "translate" attrs = (inr (fields, t1), a1) ->
  get_translatable "translate_mandatory" a1 = (inr (mandatory, t2), a2) ->
  t1 || t2 = true ->
  (forall lang, lang ∈ get_languages env -> has_char "_" (fst lang) = false) ->
  NoDup (fields ++ mandatory) ->
  (forall g, g ∈ (fields ++ mandatory)%list -> exists o, attrs !! g = Some (AField o)) ->
  (forall g, g ∈ (fields ++ mandatory)%list ->
             g ∉ derived_names env (fields ++ mandatory)) ->
  exists attrs' : gmap string attr,
    rewrite_attrs env name attrs = (inr (fields, mandatory, true), attrs') /\
    (forall k, k <> "Meta" -> k ∉ (fields ++ mandatory)%list ->
       k ∉ derived_names env (fields ++ mandatory) -> attrs' !! k = attrs !! k) /\
    (forall f, f ∈ (fields ++ mandatory)%list -> attrs' !! f = Some (AProperty f)) /\
    (forall f o lang, f ∈ (fields ++ mandatory)%list ->
       attrs !! f = Some (AField o) -> lang ∈ get_languages env ->
       exists lang', lang' ∈ get_languages env /\ fst lang' = fst lang /\
         attrs' !! get_real_fieldname env f (Some (fst lang)) =
         Some (AField (lang_attr env fields f o lang'))).
Proof. apply rewrite_attrs_expanded. Qed.

Lemma codes_en_fr_no_underscore :
  forall lang, lang ∈ get_languages env_en_US -> has_char "_" (fst lang) = false.
Proof.
  intros lang Hl. simpl in Hl.
  apply elem_of_cons in Hl as [->|Hl]; [reflexivity|].
  apply list_elem_of_singleton in Hl as ->. reflexivity.
Qed.

Lemma title_slug_not_derived :
  forall g, g ∈ (["title"] ++ ["slug"])%list ->
            g ∉ derived_names env_en_US (["title"] ++ ["slug"]).
Proof.
  apply Forall_forall. refine (bool_decide_unpack _ _); vm_compute; exact I.
Qed.

Lemma title_slug_bound :
  forall g, g ∈ (["title"] ++ ["slug"])%list ->
            exists o, attrs_title_slug !! g = Some (AField o).
Proof.
  intros g Hg. simpl in Hg.
  apply elem_of_cons in Hg as [->|Hg]; [eexists; reflexivity|].
  apply list_elem_of_singleton in Hg as ->. eexists. reflexivity.
Qed.

Lemma title_slug_NoDup : NoDup (["title"] ++ ["slug"]).
Proof.
  simpl. apply NoDup_cons_2; [|apply NoDup_singleton].
  intros H. apply list_elem_of_singleton in H. discriminate H.
Qed.

Lemma several_fields_expansion_title_slug :
  exists attrs' : gmap string attr,
    rewrite_attrs env_en_US "Article" attrs_title_slug =
      (inr (["title"], ["slug"], true), attrs') /\
    attrs' !! "objects" = Some (AOther VNone) /\
    attrs' !! "slug" = Some (AProperty "slug") /\
    exists lang', fst lang' = "fr" /\
      attrs' !! "title_fr" =
      Some (AField (lang_attr env_en_US ["title"] "title" title_field lang')).
Proof.
  destruct (several_fields_expansion env_en_US "Article" attrs_title_slug
              ["title"] true
              (snd (get_translatable "translate" attrs_title_slug))
              ["slug"] true
              (snd (get_translatable "translate_mandatory"
                      (snd (get_translatable "translate" attrs_title_slug)))))
    as (attrs' & Hr & Hout & Hprop & Hlang).
  - vm_compute. reflexivity.
  - vm_compute. reflexivity.
  - reflexivity.
  - exact codes_en_fr_no_underscore.
  - exact title_slug_NoDup.
  - exact title_slug_bound.
  - exact title_slug_not_derived.
  - exists attrs'. split; [exact Hr|]. split.
    { rewrite Hout; [reflexivity|discriminate| |].
      - refine (bool_decide_unpack _ _); vm_compute; exact I.
      - refine (bool_decide_unpack _ _); vm_compute; exact I. }
    split.
    { apply Hprop. refine (bool_decide_unpack _ _); vm_compute; exact I. }
    destruct (Hlang "title" title_field ("fr", "French"))
      as (lang' & _ & Hc & Hlook).
    + refine (bool_decide_unpack _ _); vm_compute; exact I.
    + reflexivity.
    + refine (bool_decide_unpack _ _); vm_compute; exact I.
    + exists lang'. split; [exact Hc|exact Hlook].
Defined.

(** X13. In the rewritten mapping of such a declaration, the field bound
    to [f_<code>] carries [original_fieldname = f] and the class, default
    and other options of the original; its [null] and [blank] are relaxed
    exactly when [f] is listed in [translate] and the code is not the
    mandatory language, so a name listed in [translate_mandatory] only keeps
    the original constraints in every language. *)
Theorem generated_field_constraints env name (attrs : gmap string attr)
    fields t1 a1 mandatory t2 a2 f o lang :
  get_translatable "translate" attrs = (inr (fields, t1), a1) ->
  get_translatable "translate_mandatory" a1 = (inr (mandatory, t2), a2) ->
  t1 || t2 = true ->
  (forall lang, lang ∈ get_languages env -> has_char "_" (fst lang) = false) ->
  NoDup (fields ++ mandatory) ->
  (forall g, g ∈ (fields ++ mandatory)%list -> exists o, attrs !! g = Some (AField o)) ->
  (forall g, g ∈ (fields ++ mandatory)%list ->
             g ∉ derived_names env (fields ++ mandatory)) ->
  f ∈ (fields ++ mandatory)%list ->
  attrs !! f = Some (AField o) ->
  lang ∈ get_languages env ->
  exists g,
    snd (rewrite_attrs env name attrs) !! get_real_fieldname env f (Some (fst lang)) =
      Some (AField g) /\
    original_fieldname g = Some f /\
    kind g = kind o /\ default g = default o /\ options g = options o /\
    null g =
      (if bool_decide (fst lang <> mandatory_language env) &&
          bool_decide (f ∈ fields) &&
          negb (null o) && is_NOT_PROVIDED (default o)
       then true else null o) /\
    blank g =
      (if bool_decide (fst lang <> mandatory_language env) &&
          bool_decide (f ∈ fields)
       then true else blank o).
Proof.
  intros H1 H2 Ht Hcodes Hnd Hbound Hnot Hf Ho Hl.
  destruct (rewrite_attrs_expanded env name attrs fields t1 a1 mandatory t2 a2
              H1 H2 Ht Hcodes Hnd Hbound Hnot)
    as (attrs' & Hr & _ & _ & Hlang).
  destruct (Hlang f o lang Hf Ho Hl) as (lang' & _ & Hc & Hlook).
  exists (lang_attr env fields f o lang'). rewrite Hr. split; [exact Hlook|].
  destruct (lang_attr_copy env fields f o lang') as (Hk & _ & Hd & Hopt & Hof).
  destruct (lang_attr_null_blank env fields f o lang') as [Hn Hb].
  rewrite Hc in Hn, Hb. auto 10.
Qed.

Lemma generated_field_constraints_slug_fr :
  exists g,
    snd (rewrite_attrs env_en_US "Article" attrs_title_slug) !! "slug_fr" =
      Some (AField g) /\
    original_fieldname g = Some "slug" /\ null g = false /\ blank g = false.
Proof.
  destruct (generated_field_constraints env_en_US "Article" attrs_title_slug
              ["title"] true
              (snd (get_translatable "translate" attrs_title_slug))
              ["slug"] true
              (snd (get_translatable "translate_mandatory"
                      (snd (get_translatable "translate" attrs_title_slug))))
              "slug" slug_field ("fr", "French"))
    as (g & Hg & Hof & _ & _ & _ & Hn & Hb).
  - vm_compute. reflexivity.
  - vm_compute. reflexivity.
  - reflexivity.
  - exact codes_en_fr_no_underscore.
  - exact title_slug_NoDup.
  - exact title_slug_bound.
  - exact title_slug_not_derived.
  - refine (bool_decide_unpack _ _); vm_compute; exact I.
  - reflexivity.
  - refine (bool_decide_unpack _ _); vm_compute; exact I.
  - exists g. split; [exact Hg|]. split; [exact Hof|].
    rewrite Hn, Hb. split; reflexivity.
Defined.

(** X14. The display name of a generated field is the [LazyString] over
    the original's display name and the label of the catalog entry, whether
    or not the constraints were relaxed; it renders as the original's
    rendering followed by the translated label in parentheses. A field whose
    original has no display name attribute gets none. *)
Theorem generated_verbose_name env fields field original lang gettext :
  match verbose_name original with
  | Some v =>
      exists w,
        verbose_name (lang_attr env fields field original lang) = Some w /\
        w = LazyString v (snd lang) /\
        render gettext w = render gettext v +:+ " (" +:+ gettext (snd lang) +:+ ")"
  | None => verbose_name (lang_attr env fields field original lang) = None
  end.
Proof.
  rewrite lang_attr_verbose_name.
  destruct (verbose_name original) as [v|]; [|reflexivity].
  eexists. split; [reflexivity|]. split; reflexivity.
Qed.

Example generated_verbose_name_title_fr :
  (verbose_name (lang_attr env_en_US ["title"] "title" title_field ("fr", "French"))
     ≫= fun w => Some (render (fun l => l) w)) = Some "title (French)".
Proof. reflexivity. Qed.

(** ** Collecting the registries of a class and its parents *)

Lemma pyclass_nested_ind (P : pyclass -> Prop) :
  (forall meta bases, Forall P bases -> P (PyClass meta bases)) ->
  forall c, P c.
Proof.
  intros H. fix IH 1. intros [meta bases]. apply H.
  exact ((fix go (l : list pyclass) : Forall P l :=
            match l with
            | [] => @List.Forall_nil _ P
            | b :: l' => @List.Forall_cons _ P b l' (IH b) (go l')
            end) bases).
Qed.

Lemma collect_unfold flag o bases acc :
  collect_translatable_fields flag (PyClass (Some o) bases) acc =
  walk_parents flag bases (acc ∪ list_to_set (registry o)).
Proof.
  simpl. generalize (acc ∪ list_to_set (registry o)).
  induction bases as [|b bases IH]; intros acc'; [reflexivity|].
  simpl. destruct (walks_into flag b); [|apply IH].
  destruct (collect_translatable_fields flag b acc'); [reflexivity|apply IH].
Qed.

Lemma collect_spec flag c :
  forall acc o, py_meta c = Some o ->
  exists S : gset string,
    collect_translatable_fields flag c acc = inr S /\
    forall x, x ∈ S <-> x ∈ acc \/ registered_from flag c x.
Proof.
  induction c as [meta bases IH] using pyclass_nested_ind.
  intros acc o Hmeta. simpl in Hmeta. subst meta. rewrite collect_unfold.
  assert (Hwalk : forall acc', exists S : gset string,
            walk_parents flag bases acc' = inr S /\
            forall x, x ∈ S <-> x ∈ acc' \/
              exists parent, parent ∈ bases /\ walks_into flag parent = true /\
                             registered_from flag parent x).
  { induction bases as [|b bases IHb]; intros acc'.
    - exists acc'. split; [reflexivity|]. intros x. split; [auto|].
      intros [H|(parent & H & _)]; [exact H|apply elem_of_nil in H as []].
    - apply Forall_cons in IH as [Hb IH]. specialize (IHb IH). simpl.
      destruct (walks_into flag b) eqn:Hw.
      + unfold walks_into in Hw. destruct (py_meta b) as [ob|] eqn:Hmb;
          [|discriminate Hw].
        destruct (Hb acc' ob eq_refl) as (S1 & -> & HS1).
        destruct (IHb S1) as (S2 & -> & HS2).
        exists S2. split; [reflexivity|]. intros x. rewrite HS2, HS1. split.
        * intros [[H|H]|(parent & Hp & Hwp & Hr)]; [auto| |].
          -- right. exists b. split; [apply list_elem_of_here|]. split; [|exact H].
             unfold walks_into. rewrite Hmb. exact Hw.
          -- right. exists parent. split; [apply list_elem_of_further, Hp|]. auto.
        * intros [H|(parent & Hp & Hwp & Hr)]; [auto|].
          apply elem_of_cons in Hp as [->|Hp]; [auto|].
          right. exists parent. auto.
      + destruct (IHb acc') as (S2 & -> & HS2).
        exists S2. split; [reflexivity|]. intros x. rewrite HS2. split.
        * intros [H|(parent & Hp & Hwp & Hr)]; [auto|].
          right. exists parent. split; [apply list_elem_of_further, Hp|]. auto.
        * intros [H|(parent & Hp & Hwp & Hr)]; [auto|].
          apply elem_of_cons in Hp as [->|Hp]; [congruence|].
          right. exists parent. auto. }
  destruct (Hwalk (acc ∪ list_to_set (registry o))) as (S & HS & Hx).
  exists S. split; [exact HS|]. intros x. rewrite Hx, elem_of_union,
    elem_of_list_to_set. split.
  - intros [[H|H]|(parent & Hp & Hwp & d & od & Hv & Hd & Hr)]; [auto| |].
    + right. exists (PyClass (Some o) bases), o.
      split; [apply visited_self|]. split; [reflexivity|exact H].
    + right. exists d, od. split; [|auto].
      apply (visited_parent flag _ parent); assumption.
  - intros [H|(d & od & Hv & Hd & Hr)]; [auto|].
    inversion Hv as [|? parent ? Hp Hwp Hv']; subst.
    + simpl in Hd. injection Hd as <-. auto.
    + right. exists parent. split; [exact Hp|]. split; [exact Hwp|].
      exists d, od. auto.
Qed.

Lemma visited_weaken c d : visited true c d -> visited false c d.
Proof.
  induction 1 as [c|c parent d Hp Hw _ IH]; [apply visited_self|].
  apply (visited_parent false c parent); [exact Hp| |exact IH].
  unfold walks_into in *. destruct (py_meta parent); [reflexivity|exact Hw].
Qed.

(** X15. [get_all_translatable_fields] raises [AttributeError] on a class
    without [_meta] and otherwise returns: the names it was given, the
    registry of the model, and the registries of the classes reached
    through parents that have a [_meta] and, when
    [column_in_current_table] is set, are abstract. Nothing else is
    returned, and a parent that is not entered hides its own parents. *)
Theorem get_all_translatable_fields_spec model model_trans_fields flag :
  match py_meta model with
  | None =>
      get_all_translatable_fields model model_trans_fields flag =
      inl (AttributeError "_meta")
  | Some _ =>
      exists S : gset string,
        get_all_translatable_fields model model_trans_fields flag = inr S /\
        forall x, x ∈ S <->
          x ∈ match model_trans_fields with Some acc => acc | None => ∅ end \/
          registered_from flag model x
  end.
Proof.
  destruct (py_meta model) as [o|] eqn:Hm.
  - apply (collect_spec flag model _ o Hm).
  - destruct model as [meta bases]. simpl in Hm. subst meta. reflexivity.
Qed.

Example get_all_translatable_fields_article :
  get_all_translatable_fields py_article None false =
    inr (list_to_set ["body"; "title"; "name"]) /\
  get_all_translatable_fields py_article None true =
    inr (list_to_set ["body"; "title"]) /\
  get_all_translatable_fields (PyClass None [py_abstract]) None false =
    inl (AttributeError "_meta").
Proof. split; [|split]; vm_compute; reflexivity. Qed.

(** X16. The set passed as [model_trans_fields] is only added to: the
    result is that set together with what the call without it returns. *)
Theorem get_all_translatable_fields_accumulates model acc flag (S : gset string) :
  get_all_translatable_fields model (Some acc) flag = inr S ->
  exists S0 : gset string,
    get_all_translatable_fields model None flag = inr S0 /\ S = acc ∪ S0.
Proof.
  intros H. destruct (py_meta model) as [o|] eqn:Hm.
  - unfold get_all_translatable_fields in *.
    destruct (collect_spec flag model acc o Hm) as (S1 & H1 & Hx1).
    destruct (collect_spec flag model ∅ o Hm) as (S0 & H0 & Hx0).
    rewrite H1 in H. injection H as <-. exists S0. split; [exact H0|].
    apply set_eq. intros x. rewrite elem_of_union, Hx1, Hx0.
    rewrite elem_of_empty. tauto.
  - destruct model as [meta bases]. simpl in Hm. subst meta. discriminate H.
Qed.

Lemma get_all_translatable_fields_accumulates_article :
  exists S0 : gset string,
    get_all_translatable_fields py_article None true = inr S0 /\
    list_to_set ["slug"; "body"; "title"] = ({[ "slug" ]} : gset string) ∪ S0.
Proof.
  apply (get_all_translatable_fields_accumulates py_article {[ "slug" ]} true).
  vm_compute. reflexivity.
Defined.

(** X17. Restricting the walk to abstract parents can only lose names:
    what is returned with [column_in_current_table] set is included in what
    is returned without it. *)
Theorem get_all_translatable_fields_restricted model (S1 : gset string) :
  get_all_translatable_fields model None true = inr S1 ->
  exists S2 : gset string,
    get_all_translatable_fields model None false = inr S2 /\ S1 ⊆ S2.
Proof.
  intros H. destruct (py_meta model) as [o|] eqn:Hm.
  - unfold get_all_translatable_fields in *.
    destruct (collect_spec true model ∅ o Hm) as (T1 & H1 & Hx1).
    destruct (collect_spec false model ∅ o Hm) as (T2 & H2 & Hx2).
    rewrite H1 in H. injection H as <-. exists T2. split; [exact H2|].
    intros x Hx. apply Hx2. apply Hx1 in Hx as [Hx|(d & od & Hv & Hd & Hr)];
      [auto|].
    right. exists d, od. split; [apply visited_weaken, Hv|auto].
  - destruct model as [meta bases]. simpl in Hm. subst meta. discriminate H.
Qed.

Lemma get_all_translatable_fields_restricted_article :
  exists S2 : gset string,
    get_all_translatable_fields py_article None false = inr S2 /\
    (list_to_set ["body"; "title"] : gset string) ⊆ S2.
Proof.
  apply (get_all_translatable_fields_restricted py_article).
  vm_compute. reflexivity.
Defined.

(** ** More on the inherited registry *)

(** X18. A name is in the registry a model inherits exactly when one of
    its direct bases has a [_meta], is abstract and registers it: concrete
    bases and bases without [_meta] contribute nothing. *)
Theorem inherited_translatable_fields_elem bases x :
  x ∈ inherited_translatable_fields bases <->
  exists base o, base ∈ bases /\ cls_meta base = Some o /\
                 meta_abstract o = true /\ x ∈ registry o.
Proof.
  unfold inherited_translatable_fields.
  rewrite list_elem_of_In, in_flat_map. split.
  - intros (base & Hb & Hx). apply filter_In in Hb as [Hb Ha].
    unfold is_abstract_model_base in Ha. unfold base_translatable_fields in Hx.
    destruct (cls_meta base) as [o|] eqn:Hm; [|discriminate Ha].
    exists base, o. split; [apply list_elem_of_In, Hb|].
    split; [exact Hm|]. split; [exact Ha|]. apply list_elem_of_In, Hx.
  - intros (base & o & Hb & Hm & Ha & Hx). exists base. split.
    + apply filter_In. split; [apply list_elem_of_In, Hb|].
      unfold is_abstract_model_base. rewrite Hm. exact Ha.
    + unfold base_translatable_fields. rewrite Hm. apply list_elem_of_In, Hx.
Qed.

(** ** The mandatory language and the catalog *)

(** X19. The derived name of the mandatory language is one of the derived
    names of a field exactly when the mandatory language is a code of the
    catalog. *)
Theorem mandatory_fieldname_in_each_language env field lang :
  get_mandatory_fieldname env field lang ∈
    get_real_fieldname_in_each_language env field <->
  mandatory_language env ∈ map fst (get_languages env).
Proof.
  unfold get_mandatory_fieldname. rewrite elem_of_each_language.
  rewrite list_elem_of_fmap. split.
  - intros (l & Hl & E). exists l. split; [|exact Hl].
    apply (get_real_fieldname_inj _ _ _ _ E).
  - intros (l & E & Hl). exists l. split; [exact Hl|]. rewrite E. reflexivity.
Qed.

(** X20. When the mandatory language is not a code of the catalog, no
    generated field of a name listed in [translate] keeps the original
    constraints: each is blank, and nullable unless the original declared a
    default. *)
Theorem no_mandatory_language_all_relaxed env fields field original lang :
  mandatory_language env ∉ map fst (get_languages env) ->
  lang ∈ get_languages env ->
  field ∈ fields ->
  blank (lang_attr env fields field original lang) = true /\
  null (lang_attr env fields field original lang) =
    (null original || is_NOT_PROVIDED (default original)).
Proof.
  intros Hm Hl Hf.
  destruct (lang_attr_null_blank env fields field original lang) as [-> ->].
  assert (Hne : fst lang <> mandatory_language env).
  { intros E. apply Hm. rewrite <- E. apply list_elem_of_fmap.
    exists lang. split; [reflexivity|exact Hl]. }
  rewrite (bool_decide_eq_true_2 _ Hne), (bool_decide_eq_true_2 _ Hf). simpl.
  split; [reflexivity|].
  destruct (null original), (is_NOT_PROVIDED (default original)); reflexivity.
Qed.

Lemma no_mandatory_language_all_relaxed_de :
  blank (lang_attr
           {| settings :=
                {| LANGUAGES := [("en", "English"); ("fr", "French")];
                   LANGUAGE_CODE := "de";
                   TRANSMETA_LANGUAGES := None;
                   TRANSMETA_DEFAULT_LANGUAGE := None;
                   TRANSMETA_MANDATORY_LANGUAGE := None |};
              get_language := "en" |}
           ["title"] "title" title_field ("en", "English")) = true.
Proof.
  apply no_mandatory_language_all_relaxed.
  - refine (bool_decide_unpack _ _); vm_compute; exact I.
  - refine (bool_decide_unpack _ _); vm_compute; exact I.
  - refine (bool_decide_unpack _ _); vm_compute; exact I.
Defined.

(** ** What class construction leaves to the host *)

(** X21. A class that the metaclass returns is the class the host's
    constructor built from the rewritten mapping: its name, its dictionary
    and the [abstract] flag of its [_meta] are the host's; only the registry
    of translatable fields is set. *)
Theorem TransMeta_new_keeps_host_class env MB name bases (attrs : gmap string attr)
    new_class :
  TransMeta_new env MB name bases attrs = inr new_class ->
  exists r attrs' host_class,
    rewrite_attrs env name attrs = (inr r, attrs') /\
    MB name bases attrs' = inr host_class /\
    cls_name new_class = cls_name host_class /\
    cls_dict new_class = cls_dict host_class /\
    match cls_meta host_class with
    | Some o =>
        exists l, cls_meta new_class =
                  Some {| meta_abstract := meta_abstract o;
                          translatable_fields := Some l |}
    | None => cls_meta new_class = None
    end.
Proof.
  unfold TransMeta_new.
  destruct (rewrite_attrs env name attrs) as [[e|[[fields mandatory] declared]] attrs'];
    [discriminate|].
  intros H. exists (fields, mandatory, declared), attrs'.
  destruct declared;
    (destruct (MB name bases attrs') as [e|c]; [discriminate H|]);
    exists c; (split; [reflexivity|]); (split; [reflexivity|]);
    (destruct (cls_meta c) as [o|] eqn:Hc; [|try discriminate H]);
    injection H as <-; simpl; rewrite ?Hc; eauto.
Qed.

Lemma TransMeta_new_keeps_host_class_TitledBase :
  exists r attrs' host_class,
    rewrite_attrs env_en_US "TitledBase" attrs_abstract_title = (inr r, attrs') /\
    plain_ModelBase_new "TitledBase" [] attrs' = inr host_class /\
    cls_name TitledBase = cls_name host_class /\
    cls_dict TitledBase = cls_dict host_class /\
    match cls_meta host_class with
    | Some o =>
        exists l, cls_meta TitledBase =
                  Some {| meta_abstract := meta_abstract o;
                          translatable_fields := Some l |}
    | None => cls_meta TitledBase = None
    end.
Proof.
  apply (TransMeta_new_keeps_host_class env_en_US plain_ModelBase_new
           "TitledBase" [] attrs_abstract_title TitledBase).
  vm_compute. reflexivity.
Defined.

(** X22. Without an explicit language the helper gives the same name as
    with the current language passed explicitly exactly when the current
    language code holds no hyphen. *)
Theorem get_real_fieldname_default_lang env field :
  get_real_fieldname env field None =
    get_real_fieldname env field (Some (get_language env)) <->
  has_char "-" (get_language env) = false.
Proof.
  split.
  - intros E.
    assert (E' : first_item (split "-" (get_language env)) = get_language env).
    { unfold get_real_fieldname in E. apply append_inv_head in E.
      injection E as E. exact E. }
    rewrite <- E'. apply first_item_split.
  - intros H. unfold get_real_fieldname.
    rewrite (split_no_sep _ _ H). reflexivity.
Qed.
